(** * herestate: the Broker's subscription and notification engine

    A shallow embedding of [src/Broker.tsx] (the broker whose pending
    updates live in React state), of the broker with a writer that is
    the second document of [src/Subscription.tsx], and of the first
    document of that file, a subscription without identifiers kept in a
    [Set]; followed by the properties of the engine.

    The engine is a React hook, [useCore].  What React does around it is
    taken from React's contract for hooks: a ref is a mutable cell that
    survives renders, [useState] keeps a value between renders and its
    setter replaces it, [useEffect] runs its body after a render whose
    dependencies differ from the previous ones, [useMemo] keeps its value
    while its dependencies are unchanged.  Everything the hook itself does
    is written out as a function on an explicit store.  Code that can
    raise returns a [Completion]: the store it leaves, and the exception
    if one is on its way to the caller. *)

From stdpp Require Import base option list gmap strings.

Set Default Proof Using "Type".

(** ** JavaScript values used by the engine *)

Module Js.

(** [ids: string | string[]] *)
Inductive Ids :=
| Scalar (id : string)
| Array (ids : list string).

(** [Array.isArray(ids) ? ids : [ids]] *)
Definition unscalar (ids : Ids) : list string :=
  match ids with
  | Array l => l
  | Scalar id => [id]
  end.

(** [s.indexOf(x)]: the index of the first element identical to [x];
    [None] stands for [-1]. *)
Fixpoint indexOf {A} `{EqDecision A} (x : A) (s : list A) : option nat :=
  match s with
  | [] => None
  | y :: s' => if decide (y = x) then Some 0 else S <$> indexOf x s'
  end.

(** [s.splice(index, 1)] *)
Definition splice1 {A} (index : nat) (s : list A) : list A := delete index s.

(** A thrown value. *)
Definition Exn := string.

(** What the engine raises when it calls what is not a function
    ([s.push], [s.indexOf]) or iterates what is not iterable
    ([for ... of]). *)
Definition TypeError : Exn := "TypeError"%string.

(** What running a piece of code on a store leaves behind: it returned,
    or it threw and the exception travels on to the caller. *)
Inductive Completion (St : Type) :=
| Normal (σ : St)
| Throw (e : Exn) (σ : St).
Arguments Normal {St} σ.
Arguments Throw {St} e σ.

Definition store_of {St} (c : Completion St) : St :=
  match c with Normal σ => σ | Throw _ σ => σ end.

Definition thrown {St} (c : Completion St) : option Exn :=
  match c with Normal _ => None | Throw e _ => Some e end.

(** The same completion, of code that works on a part of the store. *)
Definition within {St St'} (f : St → St') (c : Completion St) : Completion St' :=
  match c with Normal σ => Normal (f σ) | Throw e σ => Throw e (f σ) end.

(** [for (const x of l) body]: an exception raised by the body ends the
    loop. *)
Fixpoint for_each {St A} (body : St → A → Completion St) (σ : St) (l : list A)
    : Completion St :=
  match l with
  | [] => Normal σ
  | x :: l' =>
      match body σ x with
      | Normal σ' => for_each body σ' l'
      | Throw e σ' => Throw e σ'
      end
  end.

(** The properties of [Object.prototype].  An object made by [{}]
    inherits them: reading one of these names from it finds a function
    (for ["__proto__"], the prototype object), not [undefined], unless
    the object has a property of its own by that name. *)
Definition Object_prototype : list string :=
  ["constructor"; "__defineGetter__"; "__defineSetter__"; "hasOwnProperty";
   "__lookupGetter__"; "__lookupSetter__"; "isPrototypeOf";
   "propertyIsEnumerable"; "toString"; "valueOf"; "__proto__";
   "toLocaleString"]%string.

Definition inherited (id : string) : bool :=
  bool_decide (id ∈ Object_prototype).

(** Values that land in a dependency array: strings are compared by
    content, objects and functions by reference. *)
Inductive Value :=
| VStr (s : string)
| VRef (addr : nat).

#[global] Instance Value_eq_dec : EqDecision Value.
Proof. solve_decision. Defined.

End Js.

Export Js.

(** ** The subscription map and the code shared by both brokers

    [subscribe], [unsubscribe] and the two nested [for ... of] loops of the
    notifying effect are the same text in both files. *)

Module Registry.

(** A subscriber [Sub<S>] is a function; the engine only ever compares
    it by reference ([indexOf]) and calls it.  It is represented by its
    reference. *)
Definition Sub := nat.

(** [Subs<S>]: [{ [key: string]: Sub<S>[] }], the properties that the
    object [subs.current] has of its own.  The arrays are mutated in
    place ([push], [splice]) and an array, once stored under a key, is
    never replaced by another one, so the array held by a running loop is
    always the one found in the map. *)
Abbreviation Subs := (gmap string (list Sub)).

(** What [subs.current[id]] evaluates to.  [subs.current] is made by
    [{}], so a name for which it has no array is looked up in
    [Object.prototype]. *)
Inductive Slot :=
| Undefined
| Own (s : list Sub)
| Inherited.

#[global] Instance Slot_eq_dec : EqDecision Slot.
Proof. solve_decision. Defined.

Definition get (subs : Subs) (id : string) : Slot :=
  match subs !! id with
  | Some s => Own s
  | None => if inherited id then Inherited else Undefined
  end.

(** The body of the loop of [subscribe].  What is inherited is not
    [undefined] and has no [push]. *)
Definition push_sub (sub : Sub) (subs : Subs) (id : string) : Completion Subs :=
  match get subs id with
  | Undefined => Normal (<[id := [] ++ [sub]]> subs)
  | Own s => Normal (<[id := s ++ [sub]]> subs)
  | Inherited => Throw TypeError subs
  end.

(** [for (const id of ...) { ...; s.push(sub) }] *)
Definition register (ids : list string) (sub : Sub) (subs : Subs)
    : Completion Subs :=
  for_each (push_sub sub) subs ids.

(** The body of the loop of [unsubscribe].  What is inherited is not
    [undefined] and has no [indexOf]. *)
Definition remove_sub (sub : Sub) (subs : Subs) (id : string) : Completion Subs :=
  match get subs id with
  | Undefined => Normal subs
  | Own s =>
      match indexOf sub s with
      | None => Normal subs
      | Some index => Normal (<[id := splice1 index s]> subs)
      end
  | Inherited => Throw TypeError subs
  end.

(** [unsubscribe(ids, sub)] acts on the map only. *)
Definition unsubscribe (ids : Ids) (sub : Sub) (subs : Subs) : Completion Subs :=
  for_each (remove_sub sub) subs (unscalar ids).

(** How often [x] occurs in [l]. *)
Definition occ {A} `{EqDecision A} (x : A) (l : list A) : nat :=
  length (filter (λ y, y = x) l).


(** The lookup of [id] finds an array or nothing: no inherited
    property. *)
Definition plain (m : Subs) (id : string) : Prop := get m id ≠ Inherited.

#[global] Instance plain_dec m id : Decision (plain m id).
Proof. unfold plain. apply _. Defined.

(** The identifiers that a loop of [subscribe] or of [unsubscribe] gets
    through: those listed before the first one whose lookup finds an
    inherited property. *)
Fixpoint safe (m : Subs) (ids : list string) : list string :=
  match ids with
  | [] => []
  | id :: ids' => if decide (plain m id) then id :: safe m ids' else []
  end.

(** What one turn of the loop of [unsubscribe] does to the array it
    finds: the first occurrence of [sub] goes, if there is one. *)
Definition remove_first (sub : Sub) (s : list Sub) : list Sub :=
  match indexOf sub s with
  | None => s
  | Some index => splice1 index s
  end.

(** The array after a series of such turns, one for each of [ts]. *)
Definition strip (ts : list Sub) (s : list Sub) : list Sub :=
  foldl (λ s t, remove_first t s) s ts.

(** What a subscriber does with the engine when it is called: it may
    call [unsubscribe] any number of times, for itself or for others.  A
    script lists these calls in order.  (The setters that [useSubscription]
    subscribes make no such call; subscribers that would call [subscribe]
    from inside a call are not described.) *)
Definition Script := list (Ids * Sub).

(** The subscribers that a script removes from the array of [id] when
    it runs to its end, one entry for each removal, in the order of the
    removals. *)
Definition targets (id : string) (sc : Script) : list Sub :=
  flat_map (λ c, replicate (occ id (unscalar c.1)) c.2) sc.

(** No call of the script raises: the lookup of every identifier it
    names finds an array or nothing. *)
Definition harmless (m : Subs) (sc : Script) : bool :=
  forallb (λ c, forallb (λ i, bool_decide (plain m i)) (unscalar c.1)) sc.

(** When [does g] is the script that [g] runs.  A pass over the array of
    [id] has called [pre] and has [suf] before it.  The subscriber called
    next runs a script that does not raise and that removes from the
    array neither that subscriber nor one called before; and so on for
    the pass over what this script leaves of [suf].  So a call only ever
    removes subscribers whose turn has not come yet.  Nothing is asked of
    a subscriber that is removed before its turn. *)
Fixpoint forward_from (m : Subs) (does : Sub → Script) (id : string)
    (fuel : nat) (pre suf : list Sub) : bool :=
  match fuel, suf with
  | Datatypes.S fuel', f :: suf' =>
      harmless m (does f)
      && forallb (λ t, bool_decide (t ∉ pre ++ [f])) (targets id (does f))
      && forward_from m does id fuel' (pre ++ [f])
           (strip (targets id (does f)) suf')
  | _, _ => true
  end.

Definition forward (m : Subs) (does : Sub → Script) (id : string)
    (cbs : list Sub) : bool :=
  forward_from m does id (length cbs) [] cbs.

(** [f] is in the array of [id]. *)
Definition registered (f : Sub) (id : string) (m : Subs) : Prop :=
  ∃ s, m !! id = Some s ∧ f ∈ s.

(** No subscriber of an array notified for [updates] calls
    [unsubscribe]. *)
Definition quiet_on (does : Sub → Script) (updates : list string)
    (m : Subs) : Prop :=
  ∀ id s f, id ∈ updates → m !! id = Some s → f ∈ s → does f = [].

(** Among the identifiers of [updates], [f] is a subscriber of [id]
    alone, and there it is once. *)
Definition only_under (f : Sub) (id : string) (updates : list string)
    (m : Subs) : Prop :=
  occ f (default [] (m !! id)) = 1 ∧
  ∀ id', id' ∈ updates → id' ≠ id → occ f (default [] (m !! id')) = 0.

(** [m'] has the keys of [m], each with an array obtained from the one
    in [m] by removals. *)
Definition shrunk (m' m : Subs) : Prop :=
  ∀ id, match m' !! id, m !! id with
        | Some s', Some s => sublist s' s
        | None, None => True
        | _, _ => False
        end.

Section Store.

Context {S : Type}.

(** The refs of [useCore] that subscribers and effects share, and the
    record of every call made to a subscriber. *)
Record Store := mkStore {
  ref : S;                    (* ref.current *)
  subs : Subs;                (* subs.current *)
  calls : list (Sub * S)      (* each f(state) made so far, oldest first *)
}.

Definition set_ref (s : S) (σ : Store) : Store :=
  mkStore s (subs σ) (calls σ).
Definition set_subs (m : Subs) (σ : Store) : Store :=
  mkStore (ref σ) m (calls σ).
Definition log_call (f : Sub) (s : S) (σ : Store) : Store :=
  mkStore (ref σ) (subs σ) (calls σ ++ [(f, s)]).

(** The script that each subscriber runs when it is handed a state. *)
Variable script : Sub → S → Script.

(** [unsubscribe(ids, sub)] *)
Definition unsubscribe_at (ids : Ids) (sub : Sub) (σ : Store) : Completion Store :=
  within (λ m, set_subs m σ) (unsubscribe ids sub (subs σ)).

Definition run_script (σ : Store) (c : Ids * Sub) : Completion Store :=
  unsubscribe_at c.1 c.2 σ.

(** [f(ref.current)]: the call is made, and the subscriber runs its
    script; an exception raised in there leaves the subscriber. *)
Definition call (f : Sub) (σ : Store) : Completion Store :=
  for_each run_script (log_call f (ref σ) σ) (script f (ref σ)).

(** [for (const f of cbs) f(ref.current)], from the iterator's index
    [i] on.  The array iterator reads the length and the element at
    every step from the array as it is then.  Subscribers never add to
    an array here, so the length of the array at the start bounds the
    number of steps.  An exception that leaves a subscriber ends the
    loop. *)
Fixpoint for_of (fuel : nat) (id : string) (i : nat) (σ : Store)
    : Completion Store :=
  match fuel with
  | 0 => Normal σ
  | Datatypes.S fuel' =>
      match subs σ !! id with
      | None => Normal σ
      | Some cbs =>
          match cbs !! i with
          | None => Normal σ
          | Some f =>
              match call f σ with
              | Normal σ' => for_of fuel' id (Datatypes.S i) σ'
              | Throw e σ' => Throw e σ'
              end
          end
      end
  end.

(** [const cbs = subs.current[id]; if (cbs !== undefined) for ...].
    What is inherited is not [undefined] and is not iterable. *)
Definition notify (σ : Store) (id : string) : Completion Store :=
  match get (subs σ) id with
  | Undefined => Normal σ
  | Own cbs => for_of (length cbs) id 0 σ
  | Inherited => Throw TypeError σ
  end.

(** [for (const id of updates) ...] *)
Definition dispatch (updates : list string) (σ : Store) : Completion Store :=
  for_each notify σ updates.

(** [subscribe(ids, sub)]: when the loop raises, the call of [sub] is
    not reached. *)
Definition subscribe (ids : Ids) (sub : Sub) (σ : Store) : Completion Store :=
  match register (unscalar ids) sub (subs σ) with
  | Normal m => call sub (set_subs m σ)
  | Throw e m => Throw e (set_subs m σ)
  end.

(** The calls made between two stores, and how many of them went to a
    given subscriber. *)
Definition calls_since (σ σ' : Store) : list (Sub * S) :=
  drop (length (calls σ)) (calls σ').

Definition times (f : Sub) (l : list (Sub * S)) : nat :=
  length (filter (λ c, c.1 = f) l).

(** One call with the snapshot for every subscriber of every identifier
    of [updates], array by array, in the order of [updates]. *)
Definition pass_calls (updates : list string) (σ : Store) : list (Sub * S) :=
  flat_map (λ id, map (λ f, (f, ref σ)) (default [] (subs σ !! id))) updates.

(** [f] is in no array. *)
Definition unregistered (f : Sub) (σ : Store) : Prop :=
  ∀ id s, subs σ !! id = Some s → f ∉ s.

(** From [σ] to [σ'] no call went to [f], and [f] is in no array
    afterwards. *)
Definition silent (f : Sub) (σ σ' : Store) : Prop :=
  unregistered f σ' ∧ ∃ new, calls σ' = calls σ ++ new ∧ times f new = 0.

End Store.

Arguments Store : clear implicits.

End Registry.
(** ** React's [useMemo]

    React keeps the value and the dependency array of the render that
    last computed it, and computes again when [areHookInputsEqual] finds a
    difference.  That function walks both arrays up to the shorter length
    and compares with [Object.is]. *)

Module React.

Fixpoint areHookInputsEqual {D} `{EqDecision D}
    (nextDeps prevDeps : list D) : bool :=
  match nextDeps, prevDeps with
  | n :: nextDeps', p :: prevDeps' =>
      if decide (n = p) then areHookInputsEqual nextDeps' prevDeps' else false
  | _, _ => true
  end.

Record Memo (D V : Type) := mkMemo {
  memo_value : V;
  memo_deps : list D
}.
Arguments mkMemo {D V} _ _.
Arguments memo_value {D V} _.
Arguments memo_deps {D V} _.

(** [useMemo(() => create, deps)] on a render after the first. *)
Definition useMemo {D V} `{EqDecision D}
    (prev : Memo D V) (create : V) (deps : list D) : Memo D V :=
  if areHookInputsEqual deps (memo_deps prev) then prev
  else mkMemo create deps.

End React.


(** ** [src/Broker.tsx]: pending updates kept in React state *)

Module Broker.

Import Registry.

Section Core.

Context {S : Type} `{EqDecision S}.
Variable script : Sub → S → Script.

Record Core := mkCore {
  store : Store S;
  state : S;              (* the state of the last render *)
  updates : list string;  (* useState<string[]>([]) *)
  resetUpdates : bool     (* resetUpdates.current *)
}.

Definition set_state (st : S) (σ : Core) : Core :=
  mkCore (store σ) st (updates σ) (resetUpdates σ).
Definition set_store (t : Store S) (σ : Core) : Core :=
  mkCore t (state σ) (updates σ) (resetUpdates σ).

(** [update(id)].  Each [setUpdates] makes a new array. *)
Definition update (σ : Core) (id : string) : Core :=
  if resetUpdates σ then mkCore (store σ) (state σ) [id] false
  else mkCore (store σ) (state σ) (updates σ ++ [id]) (resetUpdates σ).

(** One run of [useHook(update, initialState)] as [useCore] sees it:
    the calls it makes to [update], and the state it returns unless it
    throws. *)
Record Run := mkRun {
  emitted : list string;
  outcome : S + Exn
}.

(** The body of the effect, for a render with state [state σ] and
    updates [updates σ].  When the loops raise, the assignment to
    [resetUpdates.current] after them is not reached. *)
Definition effect (σ : Core) : Completion Core :=
  let t := set_ref (state σ) (store σ) in
  if bool_decide (0 < length (updates σ)) then
    match dispatch script (updates σ) t with
    | Normal t' => Normal (mkCore t' (state σ) (updates σ) true)
    | Throw e t' => Throw e (mkCore t' (state σ) (updates σ) (resetUpdates σ))
    end
  else Normal (set_store t σ).

(** A render after the first one.  The effect depends on
    [[state, updates]]: the state is compared by reference, and the
    array of updates is a new one exactly when [update] was called.
    When the hook throws, [useCore] is left at the call of [useHook]: the
    calls to [update] made until then have happened, the effect is not
    reached. *)
Definition render (r : Run) (σ : Core) : Completion Core :=
  let σ1 := foldl update σ (emitted r) in
  match outcome r with
  | inr e => Throw e σ1
  | inl st =>
      let σ2 := set_state st σ1 in
      if bool_decide (st = state σ ∧ emitted r = []) then Normal σ2
      else effect σ2
  end.

(** The first render, when the hook returns [st]: the refs and the
    state are created, and the effect runs whatever its dependencies. *)
Definition first_render (ids : list string) (st : S) : Completion Core :=
  effect (foldl update (mkCore (mkStore st ∅ []) st [] false) ids).

(** The broker that the first render leaves. *)
Definition mount (ids : list string) (st : S) : Core :=
  store_of (first_render ids st).

(** The calls made to subscribers by a render. *)
Definition pass (r : Run) (σ : Core) : list (Sub * S) :=
  calls_since (store σ) (store (store_of (render r σ))).

(** What happens to a mounted broker. *)
Inductive Step :=
| Render (r : Run)
| Subscribe (ids : Ids) (sub : Sub)
| Unsubscribe (ids : Ids) (sub : Sub).

(** The broker that a step leaves, whether the step returned or
    raised. *)
Definition step (σ : Core) (s : Step) : Core :=
  match s with
  | Render r => store_of (render r σ)
  | Subscribe ids sub =>
      set_store (store_of (subscribe script ids sub (store σ))) σ
  | Unsubscribe ids sub =>
      set_store (store_of (unsubscribe_at ids sub (store σ))) σ
  end.

Definition exec (σ : Core) (steps : list Step) : Core := foldl step σ steps.

(** The step is a call of [subscribe] for [f]. *)
Definition subscribes (f : Sub) (s : Step) : Prop :=
  match s with Subscribe _ g => g = f | _ => False end.

(** The state returned by the last render of [steps] that returned, [st]
    if there is none. *)
Definition last_state (st : S) (steps : list Step) : S :=
  foldl (λ s step,
           match step with
           | Render r => match outcome r with inl s' => s' | inr _ => s end
           | _ => s
           end) st steps.

(** Between transitions either the flag is up or nothing is pending. *)
Definition idle (σ : Core) : Prop :=
  resetUpdates σ = false → updates σ = [].

(** The ref holds the state of the last render. *)
Definition committed (σ : Core) : Prop := ref (store σ) = state σ.

(** The object [{ ref, state, subscribe, unsubscribe }] that [useCore]
    returns: a new object on every render, whose [ref], [subscribe] and
    [unsubscribe] are always the same. *)
Record Context := mkContext {
  ctx_addr : nat;
  ctx_state : S
}.

(** The [Provider] of [createBroker]: the store of [useCore] and the two
    memoised context values. *)
Record Provider := mkProvider {
  core : Core;
  renders : nat;                    (* renders so far *)
  constCtx : Context;               (* useMemo(() => ctx, []) *)
  stateCtx : React.Memo S Context   (* useMemo(() => ctx, [ctx.state]) *)
}.

(** The first render of the [Provider], when the hook returns [st]. *)
Definition provide_first (ids : list string) (st : S) : Provider :=
  let c := mount ids st in
  let ctx := mkContext 0 (state c) in
  mkProvider c 0 ctx (React.mkMemo ctx [ctx_state ctx]).

(** A later render of the [Provider].  When the hook throws, the
    [useMemo]s after [useCore] are not reached; an effect that raises
    does so after the render has returned. *)
Definition provide (r : Run) (p : Provider) : Completion Provider :=
  let c := render r (core p) in
  match outcome r with
  | inr _ =>
      within (λ c, mkProvider c (renders p) (constCtx p) (stateCtx p)) c
  | inl _ =>
      within (λ c,
                let ctx := mkContext (Datatypes.S (renders p)) (state c) in
                mkProvider c (Datatypes.S (renders p)) (constCtx p)
                  (React.useMemo (stateCtx p) ctx [ctx_state ctx])) c
  end.

Definition provides (p : Provider) (rs : list Run) : Provider :=
  foldl (λ p r, store_of (provide r p)) p rs.

(** [useContainer()] and [useWriter()] *)
Definition useContainer (p : Provider) : S :=
  ctx_state (React.memo_value (stateCtx p)).

Definition useWriter (p : Provider) : S := ctx_state (constCtx p).

(** The effect of [useSubscription] for the array [ids] and the setter
    [setState], and the cleanup that the effect returns. *)
Definition sub_effect (ids : list string) (setState : Sub) (t : Store S)
    : Completion (Store S) :=
  if bool_decide (0 < length ids) then subscribe script (Array ids) setState t
  else Normal t.

Definition sub_cleanup (ids : list string) (setState : Sub) (t : Store S)
    : Completion (Store S) :=
  if bool_decide (0 < length ids) then unsubscribe_at (Array ids) setState t
  else Normal t.

End Core.

Arguments Core : clear implicits.
Arguments Run : clear implicits.
Arguments Step : clear implicits.
Arguments Context : clear implicits.
Arguments Provider : clear implicits.

End Broker.

(** ** [src/Subscription.tsx], second document: the broker with a writer *)

Module BrokerW.

Import Registry React.

(** The writer object returned by the hook: the object itself, and its
    enumerable properties in the order [for ... in] visits them. *)
Record Writer := mkWriter {
  w_addr : nat;
  w_fields : list (string * Value)
}.

(** [objectUnpack(obj)] *)
Definition objectUnpack (obj : Writer) : list Value :=
  let kv :=
    foldl (λ (acc : list Value * list Value) (f : string * Value),
             (acc.1 ++ [VStr f.1], acc.2 ++ [f.2]))
          ([], []) (w_fields obj) in
  kv.1 ++ kv.2.

Section Core.

Context {S : Type} `{EqDecision S}.
Variable script : Sub → S → Script.

(** [HookResult<S, W>] *)
Record HookResult := mkHookResult {
  hr_state : S;
  hr_writer : Writer
}.

(** One run of [useHook(initialState, update)]: the identifiers pushed
    on this render's [updates], and the result unless it throws. *)
Record Run := mkRun {
  emitted : list string;
  outcome : HookResult + Exn
}.

Record Core := mkCore {
  store : Store S;
  state : S;                 (* the state of the last render *)
  w : Memo Value Writer      (* useMemo(() => writer, [...objectUnpack(writer)]) *)
}.

(** A render after the first one.  [updates] is a fresh array for
    every render, so the second effect always runs, after the first.
    The effects run when the render has returned: if the loops raise,
    the memoised writer is the one of this render all the same. *)
Definition render (r : Run) (σ : Core) : Completion Core :=
  match outcome r with
  | inr e => Throw e σ
  | inl hr =>
      let w' := useMemo (w σ) (hr_writer hr) (objectUnpack (hr_writer hr)) in
      let t1 :=
        if decide (hr_state hr = state σ) then store σ
        else set_ref (hr_state hr) (store σ) in
      within (λ t2, mkCore t2 (hr_state hr) w') (dispatch script (emitted r) t1)
  end.

(** The calls made to subscribers by a render. *)
Definition pass (r : Run) (σ : Core) : list (Sub * S) :=
  calls_since (store σ) (store (store_of (render r σ))).

(** The first render. *)
Definition first_render (ids : list string) (hr : HookResult) : Completion Core :=
  within (λ t, mkCore t (hr_state hr)
                 (mkMemo (hr_writer hr) (objectUnpack (hr_writer hr))))
    (dispatch script ids (set_ref (hr_state hr) (mkStore (hr_state hr) ∅ []))).

(** The broker that the first render leaves. *)
Definition mount (ids : list string) (hr : HookResult) : Core :=
  store_of (first_render ids hr).

(** The object [{ ref, state, writer: w, subscribe, unsubscribe }] that
    [useCore] returns: a new object on every render, whose [ref],
    [subscribe] and [unsubscribe] are always the same. *)
Record Context := mkContext {
  ctx_addr : nat;
  ctx_state : S;
  ctx_writer : Writer
}.

(** The [Provider]: the store of [useCore] and the three memoised
    context values. *)
Record Provider := mkProvider {
  core : Core;
  renders : nat;                       (* renders so far *)
  refCtx : Context;                    (* useMemo(() => ctx, []) *)
  stateCtx : Memo S Context;           (* useMemo(() => ctx, [ctx.state]) *)
  writerCtx : Memo nat Context         (* useMemo(() => ctx, [ctx.writer]) *)
}.

(** A later render of the [Provider].  When the hook throws, the
    [useMemo]s after [useCore] are not reached; an effect that raises
    does so after the render has returned. *)
Definition provide (r : Run) (p : Provider) : Completion Provider :=
  let c := render r (core p) in
  match outcome r with
  | inr _ =>
      within (λ c, mkProvider c (renders p) (refCtx p) (stateCtx p) (writerCtx p)) c
  | inl _ =>
      within (λ c,
                let ctx := mkContext (Datatypes.S (renders p)) (state c)
                             (memo_value (w c)) in
                mkProvider c (Datatypes.S (renders p)) (refCtx p)
                  (useMemo (stateCtx p) ctx [ctx_state ctx])
                  (useMemo (writerCtx p) ctx [w_addr (ctx_writer ctx)])) c
  end.

(** [useWriter()] *)
Definition useWriter (p : Provider) : Writer :=
  ctx_writer (memo_value (writerCtx p)).

(** The first render of the [Provider], when the hook returns [hr]. *)
Definition provide_first (ids : list string) (hr : HookResult) : Provider :=
  let c := mount ids hr in
  let ctx := mkContext 0 (state c) (memo_value (w c)) in
  mkProvider c 0 ctx (mkMemo ctx [ctx_state ctx])
    (mkMemo ctx [w_addr (ctx_writer ctx)]).

Definition provides (p : Provider) (rs : list Run) : Provider :=
  foldl (λ p r, store_of (provide r p)) p rs.

(** The writers that a series of runs of the hook returns. *)
Definition writers (rs : list Run) : list Writer :=
  omap (λ r, match outcome r with inl hr => Some (hr_writer hr) | inr _ => None end) rs.

(** No two of these writers are different objects at one address. *)
Definition distinct_objects (ws : list Writer) : Prop :=
  ∀ w1 w2, w1 ∈ ws → w2 ∈ ws → w_addr w1 = w_addr w2 → w1 = w2.

(** What the memoised values of a provider have to do with one another:
    each memo is keyed by what it holds, the state context holds the state
    of the last render, the writer context holds the memoised writer, and
    that writer is one of [ws]. *)
Definition coherent (ws : list Writer) (p : Provider) : Prop :=
  memo_value (w (core p)) ∈ ws ∧
  memo_deps (stateCtx p) = [ctx_state (memo_value (stateCtx p))] ∧
  ctx_state (memo_value (stateCtx p)) = state (core p) ∧
  memo_deps (writerCtx p) = [w_addr (useWriter p)] ∧
  useWriter p = memo_value (w (core p)).

(** The effect of [useSubscription(ids, isSubbed)] for the setter
    [setState] when the flag is [subbed], and the cleanup that the effect
    returns. *)
Definition sub_effect (ids : Ids) (subbed : bool) (setState : Sub)
    (t : Store S) : Completion (Store S) :=
  if subbed then subscribe script ids setState t else Normal t.

Definition sub_cleanup (ids : Ids) (subbed : bool) (setState : Sub)
    (t : Store S) : Completion (Store S) :=
  if subbed then unsubscribe_at ids setState t else Normal t.

Inductive Step :=
| Render (r : Run)
| Subscribe (ids : Ids) (sub : Sub)
| Unsubscribe (ids : Ids) (sub : Sub).

Definition set_store (t : Store S) (σ : Core) : Core :=
  mkCore t (state σ) (w σ).

(** The broker that a step leaves, whether the step returned or
    raised. *)
Definition step (σ : Core) (s : Step) : Core :=
  match s with
  | Render r => store_of (render r σ)
  | Subscribe ids sub =>
      set_store (store_of (subscribe script ids sub (store σ))) σ
  | Unsubscribe ids sub =>
      set_store (store_of (unsubscribe_at ids sub (store σ))) σ
  end.

Definition exec (σ : Core) (steps : list Step) : Core := foldl step σ steps.

(** The step is a call of [subscribe] for [f]. *)
Definition subscribes (f : Sub) (s : Step) : Prop :=
  match s with Subscribe _ g => g = f | _ => False end.

(** The state returned by the last render of [steps] that returned, [st]
    if there is none. *)
Definition last_state (st : S) (steps : list Step) : S :=
  foldl (λ s step,
           match step with
           | Render r =>
               match outcome r with inl hr => hr_state hr | inr _ => s end
           | _ => s
           end) st steps.

(** The ref holds the state of the last render. *)
Definition committed (σ : Core) : Prop := ref (store σ) = state σ.

End Core.

Arguments Core : clear implicits.
Arguments Run : clear implicits.
Arguments HookResult : clear implicits.
Arguments Step : clear implicits.
Arguments Provider : clear implicits.
Arguments Context : clear implicits.

End BrokerW.

(** ** [src/Subscription.tsx], first document: subscribers in a [Set] *)

Module Subscription.

Import Registry.

(** [Set<Sub<S>>].  A [Set] lists its entries in the order they were
    added; [delete] empties the place of an entry and [add] appends one
    unless the value is there.  An iterator walks the list by index and
    passes over the empty places. *)
Definition SetData := list (option Sub).

(** [s.add(sub)] *)
Definition set_add (sub : Sub) (d : SetData) : SetData :=
  if decide (Some sub ∈ d) then d else d ++ [Some sub].

(** [s.delete(sub)] *)
Definition set_delete (sub : Sub) (d : SetData) : SetData :=
  (λ e, if decide (e = Some sub) then None else e) <$> d.

(** The values of the set, in order. *)
Definition set_elements (d : SetData) : list Sub := omap id d.

(** [d'] is [d] with some more places emptied. *)
Definition emptied (d' d : SetData) : Prop :=
  Forall2 (λ e' e, e' = e ∨ e' = None) d' d.

(** What a subscriber does with the engine when it is called: the
    subscribers for which it calls [unsubscribe], in order. *)
Definition Script := list Sub.

Section Core.

Context {S : Type} `{EqDecision S}.

(** The script that each subscriber runs when it is handed a state. *)
Variable script : Sub → S → Script.

Record Store := mkStore {
  ref : S;                    (* ref.current *)
  subs : SetData;             (* subs.current *)
  calls : list (Sub * S)      (* each sub(state) made so far, oldest first *)
}.

Definition set_ref (s : S) (σ : Store) : Store := mkStore s (subs σ) (calls σ).
Definition set_subs (d : SetData) (σ : Store) : Store := mkStore (ref σ) d (calls σ).

(** [unsubscribe(sub)] *)
Definition unsubscribe (σ : Store) (sub : Sub) : Store :=
  set_subs (set_delete sub (subs σ)) σ.

(** [sub(s)] *)
Definition call (f : Sub) (s : S) (σ : Store) : Store :=
  foldl unsubscribe (mkStore (ref σ) (subs σ) (calls σ ++ [(f, s)])) (script f s).

(** [subscribe(sub)] *)
Definition subscribe (sub : Sub) (σ : Store) : Store :=
  call sub (ref σ) (set_subs (set_add sub (subs σ)) σ).

(** [for (const sub of subs.current) sub(state)], from the iterator's
    index [i] on.  Subscribers never add to the set here, so the length of
    the list at the start bounds the number of steps. *)
Fixpoint for_of (fuel : nat) (st : S) (i : nat) (σ : Store) : Store :=
  match fuel with
  | 0 => σ
  | Datatypes.S fuel' =>
      match subs σ !! i with
      | None => σ
      | Some None => for_of fuel' st (Datatypes.S i) σ
      | Some (Some f) => for_of fuel' st (Datatypes.S i) (call f st σ)
      end
  end.

(** The body of the effect for a render with state [st]. *)
Definition effect (st : S) (σ : Store) : Store :=
  let σ1 := set_ref st σ in
  for_of (length (subs σ1)) st 0 σ1.

Record Core := mkCore {
  store : Store;
  state : S          (* the state of the last render *)
}.

(** One run of [useHook(initialState)]. *)
Definition Run := (S + Exn)%type.

(** A render after the first one; the effect depends on [[state]]. *)
Definition render (r : Run) (σ : Core) : Completion Core :=
  match r with
  | inr e => Throw e σ
  | inl st =>
      if decide (st = state σ) then Normal σ
      else Normal (mkCore (effect st (store σ)) st)
  end.

(** The first render, when the hook returns [st]. *)
Definition mount (st : S) : Core := mkCore (effect st (mkStore st [] [])) st.

Inductive Step :=
| Render (r : Run)
| Subscribe (sub : Sub)
| Unsubscribe (sub : Sub).

Definition step (σ : Core) (s : Step) : Core :=
  match s with
  | Render r => store_of (render r σ)
  | Subscribe sub => mkCore (subscribe sub (store σ)) (state σ)
  | Unsubscribe sub => mkCore (unsubscribe (store σ) sub) (state σ)
  end.

Definition exec (σ : Core) (steps : list Step) : Core := foldl step σ steps.

(** The subscribers called between two stores, in order. *)
Definition called (σ σ' : Store) : list Sub :=
  fst <$> drop (length (calls σ)) (calls σ').

End Core.

Arguments Store : clear implicits.
Arguments Core : clear implicits.
Arguments Step : clear implicits.
Arguments Run : clear implicits.

End Subscription.


(** ** Small brokers, used to run the engine *)

Module Examples.

Import Registry.

#[local] Open Scope string_scope.

(** Subscribers that only take the state, as the setters of
    [useSubscription] do. *)
Definition quiet {S} : Sub → S → Script := λ _ _, [].



(** Subscriber 1 unsubscribes subscriber 3 from ["a"] when called, and
    subscriber 3, which is then not called, would unsubscribe
    subscriber 1. *)
Definition feud {S} : Sub → S → Script :=
  λ f _, if decide (f = 1) then [(Scalar "a", 3)]
         else if decide (f = 3) then [(Scalar "a", 1)] else [].


(** Subscribers 1, 2 and 3 under ["a"], the state being [0]. *)
Definition three : Store nat :=
  store_of (subscribe quiet (Scalar "a") 3
    (store_of (subscribe quiet (Scalar "a") 2
       (store_of (subscribe quiet (Scalar "a") 1 (mkStore 0 ∅ [])))))).

(** Subscriber 1 subscribed twice under ["a"]. *)
Definition twice : Subs :=
  store_of (register ["a"] 1 (store_of (register ["a"] 1 ∅))).

(** The broker of [Broker.tsx] mounted with state [0], subscriber 1 under
    ["a"]. *)
Definition broker : Broker.Core nat :=
  Broker.exec quiet (Broker.mount quiet [] 0) [Broker.Subscribe (Scalar "a") 1].

(** Then a transition to state [1] that emits ["a"]. *)
Definition broker_after_a : Broker.Core nat :=
  Broker.exec quiet broker [Broker.Render (Broker.mkRun ["a"] (inl 1))].

(** A transition to state [2] that emits nothing. *)
Definition no_emit : Broker.Run nat := Broker.mkRun [] (inl 2).

(** A transition to state [1] that emits ["a"] twice. *)
Definition a_twice : Broker.Run nat := Broker.mkRun ["a"; "a"] (inl 1).

(** A transition to state [1] that emits ["toString"], then ["a"]. *)
Definition toString_a : Broker.Run nat := Broker.mkRun ["toString"; "a"] (inl 1).

(** A run of the hook that emits ["a"] and throws. *)
Definition throwing : Broker.Run nat := Broker.mkRun ["a"] (inr "boom").

(** A writer with one field, the dispatcher at address [7]; the object
    itself is at address [n]. *)
Definition writer (n : nat) : BrokerW.Writer :=
  BrokerW.mkWriter n [("dispatch", VRef 7)].

(** Two writers with the same two fields, listed in one order and in
    the other. *)
Definition writer_ab (n : nat) : BrokerW.Writer :=
  BrokerW.mkWriter n [("a", VRef 7); ("b", VRef 8)].

Definition writer_ba (n : nat) : BrokerW.Writer :=
  BrokerW.mkWriter n [("b", VRef 8); ("a", VRef 7)].

(** The broker with a writer, mounted with state [0], subscriber 1 under
    ["a"]. *)
Definition brokerW : BrokerW.Core nat :=
  BrokerW.exec quiet (BrokerW.mount quiet [] (BrokerW.mkHookResult 0 (writer 100)))
    [BrokerW.Subscribe (Scalar "a") 1].

(** The same transitions for it; every render builds a new writer
    object with the same dispatcher in it. *)
Definition no_emitW : BrokerW.Run nat :=
  BrokerW.mkRun [] (inl (BrokerW.mkHookResult 2 (writer 102))).

Definition a_twiceW : BrokerW.Run nat :=
  BrokerW.mkRun ["a"; "a"] (inl (BrokerW.mkHookResult 1 (writer 101))).

Definition toString_aW : BrokerW.Run nat :=
  BrokerW.mkRun ["toString"; "a"] (inl (BrokerW.mkHookResult 1 (writer 101))).

Definition throwingW : BrokerW.Run nat := BrokerW.mkRun ["a"] (inr "boom").

Definition brokerW_after_a : BrokerW.Core nat :=
  BrokerW.exec quiet brokerW
    [BrokerW.Render (BrokerW.mkRun ["a"] (inl (BrokerW.mkHookResult 1 (writer 101))))].

(** A while in the life of each broker, without a subscription of 9. *)
Definition life : list (Broker.Step nat) :=
  [Broker.Render a_twice; Broker.Subscribe (Array ["a"; "b"]) 2;
   Broker.Render no_emit; Broker.Unsubscribe (Scalar "a") 1;
   Broker.Render throwing].

Definition lifeW : list (BrokerW.Step nat) :=
  [BrokerW.Render a_twiceW; BrokerW.Subscribe (Array ["a"; "b"]) 2;
   BrokerW.Render no_emitW; BrokerW.Unsubscribe (Scalar "a") 1;
   BrokerW.Render throwingW].

(** The subscription without identifiers, mounted with state [0], with
    subscribers 1, 2 and 3; subscriber 1 unsubscribes itself when
    called. *)
Definition departs {S} : Sub → S → Subscription.Script :=
  λ f _, if decide (f = 1) then [1] else [].

Definition set_three : Subscription.Core nat :=
  Subscription.exec (λ _ _, []) (Subscription.mount (λ _ _, []) 0)
    [Subscription.Subscribe 1; Subscription.Subscribe 2; Subscription.Subscribe 3].

(** The provider of [brokerW] after the first render. *)
Definition provider : BrokerW.Provider nat :=
  let ctx := BrokerW.mkContext 0 0 (writer 100) in
  BrokerW.mkProvider brokerW 0 ctx (React.mkMemo ctx [0]) (React.mkMemo ctx [100]).

(** A provider whose first render returned the writer [writer_ab 100]. *)
Definition provider_ab : BrokerW.Provider nat :=
  BrokerW.provide_first quiet [] (BrokerW.mkHookResult 0 (writer_ab 100)).

End Examples.

(** * Properties *)

(** ** Arrays and the subscription map *)

Module RegistryFacts.

Import Registry.

Lemma indexOf_None (x : Sub) s : indexOf x s = None ↔ x ∉ s.
Proof.
  induction s as [|y s IH]; simpl.
  - split; [intros _; apply not_elem_of_nil | done].
  - case_decide as Hy.
    + subst. split; [done | intros []; left].
    + rewrite not_elem_of_cons, <- IH.
      destruct (indexOf x s); simpl; split; try done; intros []; congruence.
Qed.

Lemma indexOf_Some (x : Sub) s i :
  indexOf x s = Some i → s !! i = Some x ∧ x ∉ take i s.
Proof.
  revert i. induction s as [|y s IH]; intros i; simpl; [done|].
  case_decide as Hy.
  - intros [= <-]. subst. split; [done | apply not_elem_of_nil].
  - destruct (indexOf x s) as [j|]; simpl; [|done].
    intros [= <-]. destruct (IH j eq_refl) as [? ?]. simpl.
    split; [done|]. rewrite not_elem_of_cons. split; [congruence | done].
Qed.

Lemma remove_first_absent t s : t ∉ s → remove_first t s = s.
Proof. intros H. unfold remove_first. apply indexOf_None in H. by rewrite H. Qed.

Lemma remove_first_sublist t s : sublist (remove_first t s) s.
Proof.
  unfold remove_first, splice1. destruct (indexOf t s); [apply sublist_delete | done].
Qed.

Lemma remove_first_cons_eq t s : remove_first t (t :: s) = s.
Proof. unfold remove_first. simpl. by rewrite decide_True. Qed.

Lemma remove_first_cons_ne t y s :
  y ≠ t → remove_first t (y :: s) = y :: remove_first t s.
Proof.
  intros H. unfold remove_first, splice1. simpl. rewrite decide_False by done.
  by destruct (indexOf t s).
Qed.

Lemma remove_first_app t pre s :
  t ∉ pre → remove_first t (pre ++ s) = pre ++ remove_first t s.
Proof.
  induction pre as [|y pre IH]; [done|].
  rewrite not_elem_of_cons. intros [Hne Hpre]. simpl.
  rewrite remove_first_cons_ne by done. by rewrite IH.
Qed.

Lemma occ_nil {A} `{EqDecision A} (x : A) : occ x [] = 0.
Proof. done. Qed.

Lemma occ_cons {A} `{EqDecision A} (x y : A) l :
  occ x (y :: l) = (if decide (y = x) then 1 else 0) + occ x l.
Proof. unfold occ. rewrite filter_cons. by case_decide. Qed.

Lemma occ_app {A} `{EqDecision A} (x : A) l k : occ x (l ++ k) = occ x l + occ x k.
Proof. unfold occ. by rewrite filter_app, length_app. Qed.

Lemma occ_absent {A} `{EqDecision A} (x : A) l : x ∉ l ↔ occ x l = 0.
Proof.
  induction l as [|y l IH]; [split; [done | intros _; apply not_elem_of_nil]|].
  rewrite occ_cons, not_elem_of_cons, IH. case_decide; simpl.
  - split; [intros []; congruence | lia].
  - split; [by intros [] | intros ?; split; [congruence | done]].
Qed.

Lemma occ_remove_first t s : occ t (remove_first t s) = pred (occ t s).
Proof.
  induction s as [|y s IH]; [done|].
  destruct (decide (y = t)) as [->|Hne].
  - rewrite remove_first_cons_eq, occ_cons, decide_True by done. done.
  - rewrite remove_first_cons_ne, !occ_cons, decide_False by done. done.
Qed.

Lemma occ_sublist {A} `{EqDecision A} (x : A) l k : sublist l k → occ x l ≤ occ x k.
Proof.
  induction 1 as [|y l k _ IH|y l k _ IH]; [done|..]; rewrite ?occ_cons; lia.
Qed.

Lemma occ_replicate {A} `{EqDecision A} (x y : A) n :
  occ x (replicate n y) = if decide (y = x) then n else 0.
Proof.
  induction n as [|n IH]; simpl; [by case_decide|].
  rewrite occ_cons, IH. case_decide; lia.
Qed.

Lemma occ_remove_first_ne g f s : g ≠ f → occ g (remove_first f s) = occ g s.
Proof.
  intros Hne. induction s as [|y s IH]; [done|].
  destruct (decide (y = f)) as [->|Hy].
  - rewrite remove_first_cons_eq, occ_cons, decide_False by done. done.
  - rewrite remove_first_cons_ne, !occ_cons, IH by done. done.
Qed.

Lemma occ_iter_remove_first f n s :
  occ f (Nat.iter n (remove_first f) s) = occ f s - n.
Proof.
  induction n as [|n IH]; simpl; [lia|]. rewrite occ_remove_first, IH. lia.
Qed.

Lemma occ_iter_remove_first_ne g f n s :
  g ≠ f → occ g (Nat.iter n (remove_first f) s) = occ g s.
Proof.
  intros Hne. induction n as [|n IH]; simpl; [done|].
  by rewrite occ_remove_first_ne, IH.
Qed.

Lemma iter_remove_first_replicate f n s :
  f ∉ s → Nat.iter n (remove_first f) (s ++ replicate n f) = s.
Proof.
  intros Hf. induction n as [|n IH]; simpl; [by rewrite app_nil_r|].
  rewrite <- Nat.iter_swap, remove_first_app, remove_first_cons_eq by done. done.
Qed.


(** Loops that may raise. *)

Lemma for_each_app {St A} (body : St → A → Completion St) σ l k :
  for_each body σ (l ++ k) =
    match for_each body σ l with
    | Normal σ' => for_each body σ' k
    | Throw e σ' => Throw e σ'
    end.
Proof.
  revert σ. induction l as [|x l IH]; intros σ; simpl; [done|].
  destruct (body σ x); [apply IH | done].
Qed.

(** What holds of the store from one turn to the next holds of the
    loop. *)
Lemma for_each_preserves {St A} (R : St → St → Prop)
    (body : St → A → Completion St) σ l :
  (∀ σ, R σ σ) → (∀ σ1 σ2 σ3, R σ1 σ2 → R σ2 σ3 → R σ1 σ3) →
  (∀ σ x, R σ (store_of (body σ x))) →
  R σ (store_of (for_each body σ l)).
Proof.
  intros Hrefl Htrans Hbody. revert σ.
  induction l as [|x l IH]; intros σ; simpl; [done|].
  pose proof (Hbody σ x) as Hx.
  destruct (body σ x) as [σ'|e σ']; simpl in *; [|done].
  by eapply Htrans.
Qed.

(** The lookups of [subs.current]. *)

Lemma get_Own (m : Subs) id s : get m id = Own s ↔ m !! id = Some s.
Proof.
  unfold get. destruct (m !! id); [|destruct (inherited id)];
    split; intros H; by simplify_eq.
Qed.

Lemma get_Inherited (m : Subs) id :
  get m id = Inherited ↔ m !! id = None ∧ inherited id = true.
Proof.
  unfold get. destruct (m !! id); [|destruct (inherited id)];
    split; try done; by intros [? ?].
Qed.

Lemma plain_Some (m : Subs) id s : m !! id = Some s → plain m id.
Proof. intros H. unfold plain, get. by rewrite H. Qed.

Lemma plain_registered f id (m : Subs) : registered f id m → plain m id.
Proof. intros (s & Hs & _). by eapply plain_Some. Qed.

Lemma plain_occ f id (m : Subs) : 0 < occ f (default [] (m !! id)) → plain m id.
Proof.
  destruct (m !! id) as [s|] eqn:Hs; simpl; [intros _; by eapply plain_Some|].
  rewrite occ_nil. lia.
Qed.

(** Keys are only ever added where the lookup found nothing at all, so
    what a lookup inherits does not change. *)
Lemma plain_insert (m : Subs) id s id' :
  plain m id → plain (<[id := s]> m) id' ↔ plain m id'.
Proof.
  intros Hid. unfold plain in *. destruct (decide (id = id')) as [<-|Hne].
  - split; [done|]. intros _. unfold get. by rewrite lookup_insert_eq.
  - unfold get. by rewrite lookup_insert_ne.
Qed.

Lemma safe_insert (m : Subs) id s ids :
  plain m id → safe (<[id := s]> m) ids = safe m ids.
Proof.
  intros Hid. induction ids as [|i ids IH]; simpl; [done|].
  rewrite IH. apply decide_ext. by apply plain_insert.
Qed.

Lemma safe_plain (m : Subs) ids : Forall (plain m) ids ↔ safe m ids = ids.
Proof.
  induction ids as [|i ids IH]; simpl; [done|].
  rewrite Forall_cons. case_decide as Hi.
  - rewrite IH. split; [by intros [_ ->] | by intros [= ?]].
  - split; [by intros [? _] | done].
Qed.

Lemma safe_prefix (m : Subs) ids : safe m ids `prefix_of` ids.
Proof.
  induction ids as [|i ids IH]; simpl; [done|].
  case_decide; [by apply prefix_cons | apply prefix_nil].
Qed.

Lemma safe_Forall (m : Subs) ids : Forall (plain m) (safe m ids).
Proof.
  induction ids as [|i ids IH]; simpl; [done|].
  case_decide; [by constructor | done].
Qed.

Lemma elem_of_safe (m : Subs) ids id : id ∈ safe m ids → id ∈ ids ∧ plain m id.
Proof.
  intros H. split.
  - destruct (safe_prefix m ids) as [k Hk]. rewrite Hk, elem_of_app. by left.
  - by eapply Forall_forall; [apply safe_Forall|].
Qed.

Lemma occ_safe (m : Subs) ids id : occ id (safe m ids) ≤ occ id ids.
Proof.
  destruct (safe_prefix m ids) as [k Hk]. rewrite Hk at 2. rewrite occ_app. lia.
Qed.

(** The loops of [subscribe] and [unsubscribe], key by key. *)

Lemma push_sub_plain sub (m : Subs) id :
  plain m id →
  push_sub sub m id = Normal (<[id := default [] (m !! id) ++ [sub]]> m).
Proof.
  unfold plain, push_sub, get.
  destruct (m !! id); [done|]. by destruct (inherited id).
Qed.

Lemma push_sub_inherited sub (m : Subs) id :
  ¬ plain m id → push_sub sub m id = Throw TypeError m.
Proof.
  unfold plain, push_sub. intros H. destruct (get m id); try done; by destruct H.
Qed.

(** [subscribe] gets through the identifiers of [safe], and raises if
    these are not all. *)
Lemma register_safe ids sub (m : Subs) :
  thrown (register ids sub m) =
    (if decide (safe m ids = ids) then None else Some TypeError) ∧
  ∀ id, store_of (register ids sub m) !! id =
    if decide (id ∈ safe m ids)
    then Some (default [] (m !! id) ++ replicate (occ id (safe m ids)) sub)
    else m !! id.
Proof.
  unfold register. revert m. induction ids as [|i ids IH]; intros m; cbn [for_each safe].
  { split; [done|]. intros id. rewrite decide_False; [done | apply not_elem_of_nil]. }
  destruct (decide (plain m i)) as [Hi|Hi].
  - rewrite push_sub_plain by done.
    destruct (IH (<[i := default [] (m !! i) ++ [sub]]> m)) as [Ht Hl].
    rewrite safe_insert in Ht, Hl by done. split.
    + rewrite Ht. apply decide_ext. split; [by intros -> | by intros [= ?]].
    + intros id. rewrite Hl, occ_cons. clear IH Ht Hl.
      destruct (decide (i = id)) as [->|Hne];
        destruct (decide (id ∈ safe m ids)) as [Hin|Hin];
        destruct (decide (id ∈ _ :: safe m ids)) as [Hc|Hc]; simpl;
        rewrite ?elem_of_cons, ?not_elem_of_cons in Hc;
        try (exfalso; intuition congruence).
      * rewrite lookup_insert_eq. simpl. by rewrite <- app_assoc.
      * rewrite lookup_insert_eq. apply occ_absent in Hin. by rewrite Hin.
      * by rewrite lookup_insert_ne.
      * by rewrite lookup_insert_ne.
  - rewrite push_sub_inherited by done. by simpl.
Qed.

Lemma register_thrown ids sub (m : Subs) :
  thrown (register ids sub m) =
    if decide (safe m ids = ids) then None else Some TypeError.
Proof. apply register_safe. Qed.

Lemma register_lookup ids sub (m : Subs) id :
  store_of (register ids sub m) !! id =
    if decide (id ∈ safe m ids)
    then Some (default [] (m !! id) ++ replicate (occ id (safe m ids)) sub)
    else m !! id.
Proof. apply register_safe. Qed.

Lemma thrown_None {St} (c : Completion St) : thrown c = None → c = Normal (store_of c).
Proof. by destruct c. Qed.

Lemma thrown_Some {St} (c : Completion St) e :
  thrown c = Some e → c = Throw e (store_of c).
Proof. destruct c; [done|]. by intros [= ->]. Qed.

Lemma register_plain ids sub (m : Subs) :
  Forall (plain m) ids → register ids sub m = Normal (store_of (register ids sub m)).
Proof.
  intros H. apply thrown_None. rewrite register_thrown.
  apply safe_plain in H. by rewrite decide_True.
Qed.

Lemma register_raises ids sub (m : Subs) :
  ¬ Forall (plain m) ids →
  register ids sub m = Throw TypeError (store_of (register ids sub m)).
Proof.
  intros H. apply thrown_Some. rewrite register_thrown.
  rewrite decide_False; [done|]. by rewrite <- safe_plain.
Qed.

Lemma remove_sub_lookup sub (m : Subs) id id' :
  store_of (remove_sub sub m id) !! id' =
    if decide (id = id') then remove_first sub <$> m !! id' else m !! id'.
Proof.
  unfold remove_sub, get. case_decide as Hid.
  - subst. destruct (m !! id') as [s|] eqn:Hs; simpl.
    + unfold remove_first.
      destruct (indexOf sub s); simpl; [by rewrite lookup_insert_eq | done].
    + by destruct (inherited id').
  - destruct (m !! id) as [s|]; simpl.
    + destruct (indexOf sub s); simpl; [by rewrite lookup_insert_ne | done].
    + by destruct (inherited id).
Qed.

Lemma remove_sub_thrown sub (m : Subs) id :
  thrown (remove_sub sub m id) = if decide (plain m id) then None else Some TypeError.
Proof.
  unfold remove_sub. case_decide as Hp; unfold plain in Hp.
  - destruct (get m id) as [|s|]; [done| |done]. by destruct (indexOf sub s).
  - apply dec_stable in Hp. by rewrite Hp.
Qed.

Lemma safe_ext (m' m : Subs) ids :
  (∀ i, plain m' i ↔ plain m i) → safe m' ids = safe m ids.
Proof.
  intros H. induction ids as [|i ids IH]; simpl; [done|].
  rewrite IH. by apply decide_ext.
Qed.

(** [subscribe] adds keys only where a lookup found nothing at all. *)
Lemma register_plain_iff ids sub (m : Subs) i :
  plain (store_of (register ids sub m)) i ↔ plain m i.
Proof.
  unfold plain at 1. unfold get. rewrite register_lookup. case_decide as Hin.
  - split; [|done]. intros _. by apply elem_of_safe in Hin as [_ ?].
  - done.
Qed.

Lemma register_safe_same ids sub (m : Subs) l :
  safe (store_of (register ids sub m)) l = safe m l.
Proof. apply safe_ext. intros i. apply register_plain_iff. Qed.

Lemma register_dom ids sub (m : Subs) : dom m ⊆ dom (store_of (register ids sub m)).
Proof.
  intros id. rewrite !elem_of_dom, register_lookup. case_decide; [by eauto | done].
Qed.

Lemma register_occ_ne ids g f (m : Subs) id :
  g ≠ f →
  occ f (default [] (store_of (register ids g m) !! id))
    = occ f (default [] (m !! id)).
Proof.
  intros Hne. rewrite register_lookup. case_decide; [|done]. simpl.
  rewrite occ_app, occ_replicate, decide_False by done. lia.
Qed.

Lemma register_occ_eq ids f (m : Subs) id :
  occ f (default [] (store_of (register ids f m) !! id))
    = occ f (default [] (m !! id)) + occ id (safe m ids).
Proof.
  rewrite register_lookup. case_decide as Hin; simpl.
  - rewrite occ_app, occ_replicate, decide_True by done. done.
  - apply occ_absent in Hin. lia.
Qed.

(** [m'] has the keys of [m]. *)
Lemma same_keys_plain (m' m : Subs) id :
  (∀ i, is_Some (m' !! i) ↔ is_Some (m !! i)) → plain m' id ↔ plain m id.
Proof.
  intros H. specialize (H id). unfold plain, get.
  destruct (m' !! id) as [s'|], (m !! id) as [s|]; try done.
  - exfalso. by apply (is_Some_None (A := list Sub)), H.
  - exfalso. by apply (is_Some_None (A := list Sub)), H.
Qed.

Lemma same_keys_safe (m' m : Subs) ids :
  (∀ i, is_Some (m' !! i) ↔ is_Some (m !! i)) → safe m' ids = safe m ids.
Proof. intros H. apply safe_ext. intros i. by apply same_keys_plain. Qed.

Lemma remove_sub_keys sub (m : Subs) id i :
  is_Some (store_of (remove_sub sub m id) !! i) ↔ is_Some (m !! i).
Proof.
  rewrite remove_sub_lookup. case_decide; [|done]. by rewrite fmap_is_Some.
Qed.

(** [unsubscribe] gets through the identifiers of [safe], and raises if
    these are not all. *)
Lemma unsubscribe_safe ids sub (m : Subs) :
  thrown (unsubscribe ids sub m) =
    (if decide (safe m (unscalar ids) = unscalar ids) then None else Some TypeError) ∧
  ∀ id, store_of (unsubscribe ids sub m) !! id =
    Nat.iter (occ id (safe m (unscalar ids))) (remove_first sub) <$> m !! id.
Proof.
  unfold unsubscribe. generalize (unscalar ids) as l. clear ids.
  intros l. revert m. induction l as [|i l IH]; intros m; cbn [for_each safe].
  { split; [done|]. intros id. simpl. by destruct (m !! id). }
  pose proof (remove_sub_thrown sub m i) as Hti.
  pose proof (remove_sub_lookup sub m i) as Hli.
  pose proof (remove_sub_keys sub m i) as Hki.
  destruct (remove_sub sub m i) as [m1|e m1]; simpl in *.
  - destruct (decide (plain m i)) as [Hi|Hi]; [|done].
    destruct (IH m1) as [Ht Hl]. rewrite (same_keys_safe m1 m) in Ht, Hl by done.
    split.
    + rewrite Ht. apply decide_ext. split; [by intros -> | by intros [= ?]].
    + intros id. rewrite Hl, Hli, occ_cons. clear IH.
      destruct (decide (i = id)) as [->|Hid]; [|done].
      destruct (m !! id) as [s|]; simpl; [|done].
      f_equal. apply Nat.iter_swap.
  - destruct (decide (plain m i)) as [Hi|Hi]; [done|]. split; [done|].
    intros id. rewrite Hli. case_decide as Hid; [|by destruct (m !! id)].
    subst. apply dec_stable in Hi. destruct (m !! id) eqn:Hs; [|done].
    exfalso. apply get_Inherited in Hi as [? _]. congruence.
Qed.

Lemma unsubscribe_thrown ids sub (m : Subs) :
  thrown (unsubscribe ids sub m) =
    if decide (safe m (unscalar ids) = unscalar ids) then None else Some TypeError.
Proof. apply unsubscribe_safe. Qed.

Lemma unsubscribe_lookup ids sub (m : Subs) id :
  store_of (unsubscribe ids sub m) !! id =
    Nat.iter (occ id (safe m (unscalar ids))) (remove_first sub) <$> m !! id.
Proof. apply unsubscribe_safe. Qed.

Lemma unsubscribe_plain ids sub (m : Subs) :
  Forall (plain m) (unscalar ids) →
  unsubscribe ids sub m = Normal (store_of (unsubscribe ids sub m)).
Proof.
  intros H. apply thrown_None. rewrite unsubscribe_thrown.
  apply safe_plain in H. by rewrite decide_True.
Qed.

(** What [unsubscribe] takes out of an array. *)
Lemma unsubscribe_occ ids sub (m : Subs) id g :
  occ g (default [] (store_of (unsubscribe ids sub m) !! id)) =
    occ g (default [] (m !! id))
    - (if decide (g = sub) then occ id (safe m (unscalar ids)) else 0).
Proof.
  rewrite unsubscribe_lookup. destruct (m !! id) as [s|]; simpl.
  - case_decide as Hg.
    + subst g. apply occ_iter_remove_first.
    + rewrite occ_iter_remove_first_ne by done. lia.
  - by case_decide.
Qed.

Lemma iter_remove_first_absent n t s : t ∉ s → Nat.iter n (remove_first t) s = s.
Proof.
  intros H. induction n as [|n IH]; [done|]. simpl. rewrite IH.
  by apply remove_first_absent.
Qed.

Lemma iter_remove_first_sublist n t s : sublist (Nat.iter n (remove_first t) s) s.
Proof.
  induction n as [|n IH]; [done|]. simpl.
  etrans; [apply remove_first_sublist | done].
Qed.

Lemma unsubscribe_unregistered ids sub (m : Subs) :
  (∀ id, id ∈ unscalar ids → ¬ registered sub id m) →
  store_of (unsubscribe ids sub m) = m.
Proof.
  intros H. apply map_eq. intros id. rewrite unsubscribe_lookup.
  destruct (m !! id) as [s|] eqn:Hs; [|done]. simpl. f_equal.
  destruct (decide (id ∈ unscalar ids)) as [Hin|Hin].
  - apply iter_remove_first_absent. intros Hsub. apply (H id Hin). by exists s.
  - apply occ_absent in Hin. pose proof (occ_safe m (unscalar ids) id).
    by replace (occ id (safe m (unscalar ids))) with 0 by lia.
Qed.





(** [shrunk] is a preorder, and a subscriber found after removals was
    there before. *)

Lemma shrunk_refl (m : Subs) : shrunk m m.
Proof. intros id. by destruct (m !! id). Qed.

Lemma shrunk_trans (m1 m2 m3 : Subs) : shrunk m1 m2 → shrunk m2 m3 → shrunk m1 m3.
Proof.
  intros H12 H23 id. specialize (H12 id). specialize (H23 id).
  destruct (m1 !! id), (m2 !! id), (m3 !! id); try done. by etrans.
Qed.

Lemma shrunk_registered (m' m : Subs) f id :
  shrunk m' m → registered f id m' → registered f id m.
Proof.
  intros H (s' & Hs' & Hf). specialize (H id). rewrite Hs' in H.
  destruct (m !! id) as [s|] eqn:Hs; [|done].
  exists s. split; [done|]. by eapply elem_of_sublist.
Qed.

Lemma shrunk_keys (m' m : Subs) :
  shrunk m' m → ∀ i, is_Some (m' !! i) ↔ is_Some (m !! i).
Proof.
  intros H i. specialize (H i).
  destruct (m' !! i), (m !! i); try done; split; intros [? ?]; done.
Qed.

Lemma shrunk_plain (m' m : Subs) id : shrunk m' m → plain m' id ↔ plain m id.
Proof. intros H. by apply same_keys_plain, shrunk_keys. Qed.

Lemma shrunk_safe (m' m : Subs) ids : shrunk m' m → safe m' ids = safe m ids.
Proof. intros H. by apply same_keys_safe, shrunk_keys. Qed.

Lemma shrunk_dom (m' m : Subs) : shrunk m' m → dom m' = dom m.
Proof.
  intros H. apply set_eq. intros id. rewrite !elem_of_dom. by apply shrunk_keys.
Qed.

Lemma shrunk_occ (m' m : Subs) f id :
  shrunk m' m → occ f (default [] (m' !! id)) ≤ occ f (default [] (m !! id)).
Proof.
  intros H. specialize (H id). destruct (m' !! id), (m !! id); simpl; try done.
  by apply occ_sublist.
Qed.

Lemma unsubscribe_shrunk ids sub (m : Subs) :
  shrunk (store_of (unsubscribe ids sub m)) m.
Proof.
  intros id. rewrite unsubscribe_lookup.
  destruct (m !! id) as [s|]; simpl; [apply iter_remove_first_sublist | done].
Qed.

End RegistryFacts.

(** ** Calls and the notifying loops *)

Module StoreFacts.

Import Registry RegistryFacts.

Section Facts.

Context {S : Type}.
Variable script : Sub → S → Script.

Implicit Types (σ : Store S) (f g : Sub) (id : string).

Lemma unsubscribe_at_spec ids g σ :
  let σ' := store_of (unsubscribe_at ids g σ) in
  ref σ' = ref σ ∧ calls σ' = calls σ ∧
  subs σ' = store_of (unsubscribe ids g (subs σ)) ∧
  thrown (unsubscribe_at ids g σ) = thrown (unsubscribe ids g (subs σ)).
Proof. unfold unsubscribe_at. by destruct (unsubscribe ids g (subs σ)). Qed.

Lemma unsubscribe_at_plain ids g σ :
  Forall (plain (subs σ)) (unscalar ids) →
  unsubscribe_at ids g σ =
    Normal (set_subs (store_of (unsubscribe ids g (subs σ))) σ).
Proof. intros H. unfold unsubscribe_at. by rewrite unsubscribe_plain. Qed.



(** Whatever a script does, it leaves the ref and the record of calls
    alone and only takes subscribers out of arrays. *)
Lemma run_scripts_spec sc σ :
  let σ' := store_of (for_each run_script σ sc) in
  ref σ' = ref σ ∧ calls σ' = calls σ ∧ shrunk (subs σ') (subs σ).
Proof.
  apply (for_each_preserves
           (λ a b : Store S, ref b = ref a ∧ calls b = calls a
                             ∧ shrunk (subs b) (subs a))).
  - intros a. repeat split. apply shrunk_refl.
  - intros a b c (-> & -> & Hab) (-> & -> & Hbc). repeat split.
    by eapply shrunk_trans.
  - intros a c. unfold run_script.
    destruct (unsubscribe_at_spec c.1 c.2 a) as (-> & -> & -> & _).
    repeat split. apply unsubscribe_shrunk.
Qed.


Lemma call_leaves f σ :
  let σ' := store_of (call script f σ) in
  ref σ' = ref σ ∧ calls σ' = calls σ ++ [(f, ref σ)] ∧
  shrunk (subs σ') (subs σ).
Proof. unfold call. apply (run_scripts_spec _ (log_call f (ref σ) σ)). Qed.

Lemma call_ref f σ : ref (store_of (call script f σ)) = ref σ.
Proof. apply call_leaves. Qed.

Lemma call_calls f σ :
  calls (store_of (call script f σ)) = calls σ ++ [(f, ref σ)].
Proof. apply call_leaves. Qed.

Lemma call_shrunk f σ : shrunk (subs (store_of (call script f σ))) (subs σ).
Proof. apply call_leaves. Qed.

Lemma call_quiet f σ :
  script f (ref σ) = [] → call script f σ = Normal (log_call f (ref σ) σ).
Proof. intros H. unfold call. by rewrite H. Qed.


(** Whatever the scripts do, a loop only calls subscribers that were in
    the array when it started, hands each the snapshot, and leaves
    behind arrays that have only lost elements; also when a script
    raises and ends the loop. *)
Lemma for_of_called n id i σ :
  let σ' := store_of (for_of script n id i σ) in
  ref σ' = ref σ ∧ shrunk (subs σ') (subs σ) ∧
  ∃ new, calls σ' = calls σ ++ new ∧
         Forall (λ c, registered c.1 id (subs σ) ∧ c.2 = ref σ) new.
Proof.
  revert i σ. induction n as [|n IH]; intros i σ; simpl.
  { split; [done|]. split; [apply shrunk_refl|]. exists []. by rewrite app_nil_r. }
  destruct (subs σ !! id) as [cbs|] eqn:Hcbs;
    [|split; [done|]; split; [apply shrunk_refl|]; exists []; by rewrite app_nil_r].
  destruct (cbs !! i) as [f|] eqn:Hf;
    [|split; [done|]; split; [apply shrunk_refl|]; exists []; by rewrite app_nil_r].
  assert (registered f id (subs σ)) as Hreg.
  { exists cbs. split; [done|]. by eapply list_elem_of_lookup_2. }
  destruct (call_leaves f σ) as (Hr1 & Hc1 & Hs1).
  destruct (call script f σ) as [σ1|e σ1]; simpl in *.
  - destruct (IH (Datatypes.S i) σ1) as (Hr & Hs & new & Hc & Hnew).
    split; [congruence|]. split; [by eapply shrunk_trans|].
    exists ((f, ref σ) :: new). split; [by rewrite Hc, Hc1, <- app_assoc|].
    constructor; [done|].
    eapply Forall_impl; [done|]. intros c [Hregc Hst]. split; [|congruence].
    by eapply shrunk_registered.
  - split; [done|]. split; [done|]. exists [(f, ref σ)]. split; [done|].
    by constructor.
Qed.

Lemma notify_called σ id :
  let σ' := store_of (notify script σ id) in
  ref σ' = ref σ ∧ shrunk (subs σ') (subs σ) ∧
  ∃ new, calls σ' = calls σ ++ new ∧
         Forall (λ c, registered c.1 id (subs σ) ∧ c.2 = ref σ) new.
Proof.
  unfold notify. destruct (get (subs σ) id) as [|cbs|].
  - split; [done|]. split; [apply shrunk_refl|]. exists []. by rewrite app_nil_r.
  - apply for_of_called.
  - split; [done|]. split; [apply shrunk_refl|]. exists []. by rewrite app_nil_r.
Qed.

Lemma dispatch_called updates σ :
  let σ' := store_of (dispatch script updates σ) in
  ref σ' = ref σ ∧ shrunk (subs σ') (subs σ) ∧
  ∃ new, calls σ' = calls σ ++ new ∧
         Forall (λ c, (∃ id, id ∈ updates ∧ registered c.1 id (subs σ))
                      ∧ c.2 = ref σ) new.
Proof.
  unfold dispatch. revert σ. induction updates as [|id updates IH]; intros σ; simpl.
  { split; [done|]. split; [apply shrunk_refl|]. exists []. by rewrite app_nil_r. }
  destruct (notify_called σ id) as (Hr1 & Hs1 & new1 & Hc1 & Hn1).
  assert (Forall (λ c, (∃ id0, id0 ∈ id :: updates ∧ registered c.1 id0 (subs σ))
                       ∧ c.2 = ref σ) new1) as Hn1'.
  { eapply Forall_impl; [done|]. intros c [Hreg Hst]. split; [|done].
    exists id. split; [left | done]. }
  destruct (notify script σ id) as [σ1|e σ1]; simpl in *.
  - destruct (IH σ1) as (Hr & Hs & new & Hc & Hnew).
    split; [congruence|]. split; [by eapply shrunk_trans|].
    exists (new1 ++ new). split; [by rewrite Hc, Hc1, <- app_assoc|].
    apply Forall_app. split; [done|].
    eapply Forall_impl; [done|]. intros c [(id' & Hin & Hreg) Hst].
    split; [|congruence].
    exists id'. split; [by right|]. by eapply shrunk_registered.
  - split; [done|]. split; [done|]. by exists new1.
Qed.

(** The bound on the steps of the loop is never what stops it: with the
    length of the array at the start, or anything above, the loop ends
    because the index has reached the end of the array, or because a
    subscriber raised. *)
Lemma for_of_fuel n k id i σ cbs :
  subs σ !! id = Some cbs →
  length cbs ≤ n + i →
  for_of script (n + k) id i σ = for_of script n id i σ.
Proof.
  revert i σ cbs. induction n as [|n IH]; intros i σ cbs Hcbs Hlen; simpl.
  - destruct k as [|k]; simpl; [done|].
    rewrite Hcbs. by rewrite lookup_ge_None_2 by lia.
  - rewrite Hcbs. destruct (cbs !! i) as [f|]; [|done].
    pose proof (call_shrunk f σ id) as Hs. rewrite Hcbs in Hs.
    destruct (call script f σ) as [σ1|e σ1]; simpl in *; [|done].
    destruct (subs σ1 !! id) as [cbs1|] eqn:Hcbs1; [|done].
    apply (IH _ _ cbs1); [done|].
    pose proof (sublist_length _ _ Hs). lia.
Qed.

Lemma notify_fuel k σ id cbs :
  subs σ !! id = Some cbs →
  for_of script (length cbs + k) id 0 σ = notify script σ id.
Proof.
  intros Hcbs. unfold notify. rewrite (proj2 (get_Own _ _ _) Hcbs).
  apply (for_of_fuel _ _ _ _ _ cbs Hcbs). lia.
Qed.

(** When no subscriber of the array unsubscribes, the loop calls the
    array from the index on, in order, and changes nothing else. *)
Lemma for_of_quiet n id i σ cbs :
  subs σ !! id = Some cbs →
  Forall (λ f, script f (ref σ) = []) cbs →
  length cbs ≤ n + i →
  for_of script n id i σ =
    Normal (mkStore (ref σ) (subs σ)
              (calls σ ++ map (λ f, (f, ref σ)) (drop i cbs))).
Proof.
  revert i σ. induction n as [|n IH]; intros i σ Hcbs Hq Hlen; simpl.
  { rewrite drop_ge by lia. simpl. rewrite app_nil_r. by destruct σ. }
  rewrite Hcbs. destruct (cbs !! i) as [f|] eqn:Hf.
  - assert (script f (ref σ) = []) as Hqf.
    { eapply Forall_forall in Hq; [done|]. by eapply list_elem_of_lookup_2. }
    rewrite call_quiet by done.
    rewrite (IH (Datatypes.S i) (log_call f (ref σ) σ) Hcbs Hq) by (simpl; lia).
    simpl. rewrite (drop_S _ _ _ Hf). simpl. by rewrite <- app_assoc.
  - apply lookup_ge_None in Hf. rewrite drop_ge by done.
    simpl. rewrite app_nil_r. by destruct σ.
Qed.

Lemma notify_quiet σ id :
  (∀ s f, subs σ !! id = Some s → f ∈ s → script f (ref σ) = []) →
  plain (subs σ) id →
  notify script σ id =
    Normal (mkStore (ref σ) (subs σ)
              (calls σ ++ map (λ f, (f, ref σ)) (default [] (subs σ !! id)))).
Proof.
  intros Hq Hp. unfold notify, plain, get in *.
  destruct (subs σ !! id) as [cbs|] eqn:Hcbs; simpl.
  - rewrite (for_of_quiet _ _ _ _ cbs Hcbs) by
      (first [lia | apply Forall_forall; intros f Hf; by eapply Hq]).
    by rewrite drop_0.
  - destruct (inherited id); [done|]. rewrite app_nil_r. by destruct σ.
Qed.

Lemma notify_inherited σ id :
  ¬ plain (subs σ) id → notify script σ id = Throw TypeError σ.
Proof. intros H. apply dec_stable in H. unfold notify. by rewrite H. Qed.

(** A dispatch to subscribers that do not unsubscribe gets through the
    identifiers of [safe], array by array, and raises if these are not
    all. *)
Lemma dispatch_quiet updates σ :
  quiet_on (flip script (ref σ)) updates (subs σ) →
  dispatch script updates σ =
    (if decide (safe (subs σ) updates = updates) then Normal else Throw TypeError)
      (mkStore (ref σ) (subs σ)
         (calls σ ++ pass_calls (safe (subs σ) updates) σ)).
Proof.
  unfold dispatch, pass_calls. revert σ.
  induction updates as [|id updates IH]; intros σ Hq; cbn [for_each safe].
  { simpl. rewrite app_nil_r. by destruct σ. }
  destruct (decide (plain (subs σ) id)) as [Hp|Hp].
  - rewrite notify_quiet; [|intros s f; apply Hq; left|done].
    rewrite IH; simpl.
    + rewrite <- app_assoc.
      by destruct (decide (safe (subs σ) updates = updates)) as [->|Hne];
        [rewrite decide_True by done | rewrite decide_False by congruence].
    + intros id' s f Hin. apply Hq. by right.
  - rewrite notify_inherited by done. rewrite decide_False by done.
    simpl. rewrite app_nil_r. by destruct σ.
Qed.

Lemma dispatch_quiet_plain updates σ :
  quiet_on (flip script (ref σ)) updates (subs σ) →
  Forall (plain (subs σ)) updates →
  dispatch script updates σ =
    Normal (mkStore (ref σ) (subs σ) (calls σ ++ pass_calls updates σ)).
Proof.
  intros Hq Hp. rewrite dispatch_quiet by done.
  apply safe_plain in Hp. rewrite Hp. by rewrite decide_True.
Qed.


(** Counting calls. *)

Lemma times_app f (l k : list (Sub * S)) : times f (l ++ k) = times f l + times f k.
Proof. unfold times. by rewrite filter_app, length_app. Qed.

Lemma times_map f (st : S) l : times f (map (λ g, (g, st)) l) = occ f l.
Proof.
  unfold times, occ. induction l as [|g l IH]; [done|]. simpl.
  rewrite !filter_cons. simpl. by destruct (decide (g = f)); simpl; rewrite IH.
Qed.

Lemma times_none f (l : list (Sub * S)) : Forall (λ c, c.1 ≠ f) l → times f l = 0.
Proof.
  unfold times. induction 1 as [|c l Hc _ IH]; [done|].
  by rewrite filter_cons, decide_False.
Qed.

Lemma calls_since_app σ σ' new : calls σ' = calls σ ++ new → calls_since σ σ' = new.
Proof. intros H. unfold calls_since. by rewrite H, drop_app_length. Qed.

Lemma times_pass_calls f id updates σ :
  only_under f id updates (subs σ) →
  times f (pass_calls updates σ) = occ id updates.
Proof.
  unfold pass_calls. intros [Hone Hothers].
  induction updates as [|i updates IH]; [done|]. simpl.
  rewrite times_app, times_map, occ_cons, IH.
  - case_decide as Hi; [by subst i; rewrite Hone|].
    rewrite Hothers; [done | left | done].
  - intros id' Hin. apply Hothers. by right.
Qed.

Lemma not_registered_occ f id (m : Subs) :
  ¬ registered f id m ↔ occ f (default [] (m !! id)) = 0.
Proof.
  rewrite <- occ_absent. unfold registered.
  destruct (m !! id) as [s|]; simpl.
  - split; [intros H Hf; apply H; by exists s | by intros H (? & [= <-] & ?)].
  - split; [intros _; apply not_elem_of_nil | by intros _ (? & ? & ?)].
Qed.

(** From one store to a later one without a call to [f]. *)

Lemma unregistered_not_registered f σ :
  unregistered f σ ↔ ∀ id, ¬ registered f id (subs σ).
Proof.
  split.
  - intros H id (s & Hs & Hf). by apply (H id s).
  - intros H id s Hs Hf. apply (H id). by exists s.
Qed.

Lemma unregistered_shrunk f σ σ' :
  shrunk (subs σ') (subs σ) → unregistered f σ → unregistered f σ'.
Proof.
  rewrite !unregistered_not_registered. intros Hs H id Hreg.
  apply (H id). by eapply shrunk_registered.
Qed.

Lemma silent_refl f σ : unregistered f σ → silent f σ σ.
Proof. intros H. split; [done|]. exists []. by rewrite app_nil_r. Qed.

Lemma silent_trans f σ1 σ2 σ3 : silent f σ1 σ2 → silent f σ2 σ3 → silent f σ1 σ3.
Proof.
  intros [_ (n1 & Hc1 & Ht1)] [Hu (n2 & Hc2 & Ht2)]. split; [done|].
  exists (n1 ++ n2). split; [by rewrite Hc2, Hc1, <- app_assoc|].
  rewrite times_app. lia.
Qed.

Lemma silent_set_ref f st σ : unregistered f σ → silent f σ (set_ref st σ).
Proof. intros H. split; [done|]. exists []. simpl. by rewrite app_nil_r. Qed.

Lemma silent_dispatch f updates σ :
  unregistered f σ → silent f σ (store_of (dispatch script updates σ)).
Proof.
  intros H. destruct (dispatch_called updates σ) as (_ & Hs & new & Hc & Hnew).
  split; [by eapply unregistered_shrunk|].
  exists new. split; [done|]. apply times_none.
  eapply Forall_impl; [done|]. intros [g st] [(id & _ & Hreg) _] Hg.
  simpl in *. subst g.
  by apply (proj1 (unregistered_not_registered _ _) H id).
Qed.

Lemma silent_unsubscribe f ids g σ :
  unregistered f σ → silent f σ (store_of (unsubscribe_at ids g σ)).
Proof.
  intros H. destruct (unsubscribe_at_spec ids g σ) as (_ & Hc & Hs & _).
  split; [|exists []; by rewrite Hc, app_nil_r].
  eapply unregistered_shrunk; [|done]. rewrite Hs. apply unsubscribe_shrunk.
Qed.

(** What [subscribe] makes of the store: the arrays after the loop have
    at most lost elements, and the call is made when the loop has not
    raised. *)
Lemma subscribe_spec ids g σ :
  let σ' := store_of (subscribe script ids g σ) in
  ref σ' = ref σ ∧
  shrunk (subs σ') (store_of (register (unscalar ids) g (subs σ))) ∧
  calls σ' = calls σ ++
    (if decide (Forall (plain (subs σ)) (unscalar ids)) then [(g, ref σ)] else []).
Proof.
  unfold subscribe. case_decide as Hp.
  - rewrite register_plain by done.
    set (σ1 := set_subs _ σ).
    destruct (call_leaves g σ1) as (Hr & Hc & Hs). by repeat split.
  - rewrite register_raises by done. simpl.
    repeat split; [apply shrunk_refl | by rewrite app_nil_r].
Qed.

Lemma silent_subscribe f ids g σ :
  unregistered f σ → g ≠ f → silent f σ (store_of (subscribe script ids g σ)).
Proof.
  intros H Hne. destruct (subscribe_spec ids g σ) as (_ & Hs & Hc).
  split.
  - apply unregistered_not_registered. intros id Hreg.
    apply (shrunk_registered _ _ _ _ Hs) in Hreg as (s & Hl & Hin).
    rewrite register_lookup in Hl. case_decide.
    + injection Hl as <-. apply elem_of_app in Hin as [Hin|Hin].
      * destruct (subs σ !! id) as [s|] eqn:Hsub; simpl in Hin;
          [by eapply H | by apply not_elem_of_nil in Hin].
      * apply elem_of_replicate in Hin as [? _]. congruence.
    + by eapply H.
  - eexists. split; [done|]. apply times_none.
    case_decide; [|done]. constructor; [done | constructor].
Qed.

End Facts.

End StoreFacts.

(** ** The engine's operations *)

Module Engine.

Import Registry RegistryFacts StoreFacts Examples.

Section Operations.

Context {S : Type}.
Variable script : Sub → S → Script.

Implicit Types (σ : Store S) (sub f : Sub) (id : string) (ids : Ids).


(** C9, as amended.  When the lookup of [id] finds an array or nothing
    and [sub] is in the array at most once, [unsubscribe(id, sub)]
    returns; it changes nothing if [sub] is not there, and a second
    [unsubscribe(id, sub)] returns and changes nothing after a first.
    No subscriber is called. *)
Theorem unsubscribe_at_most_once σ id sub :
  plain (subs σ) id →
  occ sub (default [] (subs σ !! id)) ≤ 1 →
  ∃ σ', unsubscribe_at (Scalar id) sub σ = Normal σ' ∧
    (¬ registered sub id (subs σ) → σ' = σ) ∧
    unsubscribe_at (Scalar id) sub σ' = Normal σ'.
Proof.
  intros Hp Hocc.
  assert (Forall (plain (subs σ)) (unscalar (Scalar id))) as Hall
    by (by repeat constructor).
  eexists. split; [by apply unsubscribe_at_plain|]. split.
  - intros Hreg. rewrite unsubscribe_unregistered; [by destruct σ|].
    simpl. intros i Hi. by apply list_elem_of_singleton in Hi as ->.
  - rewrite unsubscribe_at_plain.
    2:{ simpl. repeat constructor.
        eapply shrunk_plain; [apply unsubscribe_shrunk | done]. }
    unfold set_subs. simpl. do 2 f_equal.
    apply map_eq. intros i. rewrite !unsubscribe_lookup.
    rewrite (shrunk_safe _ (subs σ)) by apply unsubscribe_shrunk.
    apply safe_plain in Hall. rewrite Hall. simpl.
    rewrite occ_cons, occ_nil. case_decide as Hi; [subst i|].
    + destruct (subs σ !! id) as [s|]; simpl in *; [|done]. f_equal.
      apply remove_first_absent, occ_absent. rewrite occ_remove_first. lia.
    + by destruct (subs σ !! i).
Qed.


End Operations.

Section OperationsAtWork.

#[local] Open Scope string_scope.

Lemma three_subs : subs three = {["a" := [1; 2; 3]]}.
Proof. by vm_compute. Qed.

(** In the store [three], what is not ["a"] and not a name of
    [Object.prototype] is looked up and found [undefined]. *)
Lemma three_plain i : i = "a" ∨ inherited i = false → plain (subs three) i.
Proof.
  rewrite three_subs. unfold plain, get. intros [->|Hi].
  - by rewrite lookup_singleton_eq.
  - destruct (_ !! i); [done|]. by rewrite Hi.
Qed.


(** C4 at work: subscriber 5 joins ["a"], which has subscribers, and
    ["b"], which has no array yet, and is called once with the state. *)
Example subscribe_bootstraps_ab :
  let σ := store_of (subscribe quiet (Array ["a"; "b"]) 5 three) in
  subs σ !! "a" = Some [1; 2; 3; 5] ∧ subs σ !! "b" = Some [5] ∧
  calls_since three σ = [(5, 0)].
Proof. vm_compute. done. Qed.


Lemma unsubscribe_at_most_once_witness :
  ∃ σ', unsubscribe_at (Scalar "a") 2 three = Normal σ' ∧
    (¬ registered 2 "a" (subs three) → σ' = three) ∧
    unsubscribe_at (Scalar "a") 2 σ' = Normal σ'.
Proof.
  apply (unsubscribe_at_most_once three "a" 2).
  - apply three_plain. by left.
  - vm_compute. lia.
Defined.

(** C9 as stated fails: a subscriber pushed twice under ["a"] is still
    there after one [unsubscribe], and the second call removes it.  And
    [unsubscribe("hasOwnProperty", sub)], for a subscriber that was never
    registered, raises: what is found under that name is a function,
    which has no [indexOf]. *)
Lemma unsubscribe_twice_differs :
  twice !! "a" = Some [1; 1] ∧
  (let once := store_of (unsubscribe (Scalar "a") 1 twice) in
   once !! "a" = Some [1] ∧
   store_of (unsubscribe (Scalar "a") 1 once) !! "a" = Some [] ∧
   store_of (unsubscribe (Scalar "a") 1 once) ≠ once) ∧
  unsubscribe (Scalar "hasOwnProperty") 1 twice = Throw TypeError twice.
Proof.
  split; [by vm_compute|]. split; [|by vm_compute].
  split; [by vm_compute|]. split; [by vm_compute|].
  intros H. apply (f_equal (λ m : Subs, m !! "a")) in H. vm_compute in H. discriminate.
Qed.


(** C2 as amended asks nothing of a subscriber that is not called:
    subscriber 3 would unsubscribe subscriber 1, but 1 has unsubscribed
    it before its turn. *)
Example notify_forward_feud :
  forward (subs three) (flip feud (ref three)) "a" [1; 2; 3] = true ∧
  calls_since three (store_of (notify feud three "a")) = [(1, 0); (2, 0)] ∧
  subs (store_of (notify feud three "a")) !! "a" = Some [1; 2].
Proof. by vm_compute. Qed.


End OperationsAtWork.

End Engine.

(** ** Transitions of [src/Broker.tsx] *)

Module BrokerFacts.

Import Registry RegistryFacts StoreFacts Broker.

Section Facts.

Context {S : Type} `{EqDecision S}.
Variable script : Sub → S → Script.

Implicit Types (σ : Core S) (r : Run S) (st : S).

Lemma update_fold_store σ ids :
  store (foldl update σ ids) = store σ ∧ state (foldl update σ ids) = state σ.
Proof.
  revert σ. induction ids as [|i ids IH]; intros σ; simpl; [done|].
  destruct (IH (update σ i)) as [-> ->]. unfold update. by destruct (resetUpdates σ).
Qed.

Lemma update_fold_append σ ids :
  resetUpdates σ = false →
  updates (foldl update σ ids) = updates σ ++ ids ∧
  resetUpdates (foldl update σ ids) = false.
Proof.
  revert σ. induction ids as [|i ids IH]; intros σ Hr; simpl.
  - by rewrite app_nil_r.
  - destruct (IH (update σ i)) as [-> ->].
    + unfold update. by rewrite Hr.
    + unfold update. rewrite Hr. simpl. by rewrite <- app_assoc.
Qed.

(** Once the broker is idle, the identifiers of a transition that emits
    replace whatever the state held. *)
Lemma update_fold_idle σ ids :
  idle σ → ids ≠ [] →
  updates (foldl update σ ids) = ids ∧ resetUpdates (foldl update σ ids) = false.
Proof.
  intros Hidle Hne. destruct ids as [|i ids]; [done|]. simpl.
  destruct (update_fold_append (update σ i) ids) as [-> ->].
  - unfold update. by destruct (resetUpdates σ).
  - unfold update. destruct (resetUpdates σ) eqn:Hr; simpl; [done|].
    by rewrite (Hidle Hr).
Qed.

Lemma render_throws σ r e :
  outcome r = inr e → render script r σ = Throw e (foldl update σ (emitted r)).
Proof. intros H. unfold render. by rewrite H. Qed.

(** What the effect leaves: the state and the updates of the render, and
    the store of a dispatch, or of none, with the state in the ref. *)
Lemma effect_spec σ :
  let σ' := store_of (effect script σ) in
  state σ' = state σ ∧ updates σ' = updates σ ∧
  store σ' = store_of (dispatch script
                         (if bool_decide (0 < length (updates σ)) then updates σ else [])
                         (set_ref (state σ) (store σ))).
Proof.
  unfold effect. case_bool_decide; simpl; [|done].
  by destruct (dispatch script (updates σ) (set_ref (state σ) (store σ))).
Qed.

(** A transition that emits: the effect runs and dispatches what was
    emitted; the flag goes up when the loops return. *)
Lemma render_emitting σ r st :
  outcome r = inl st → idle σ → emitted r ≠ [] →
  render script r σ =
    match dispatch script (emitted r) (set_ref st (store σ)) with
    | Normal t => Normal (mkCore t st (emitted r) true)
    | Throw e t => Throw e (mkCore t st (emitted r) false)
    end.
Proof.
  intros Hout Hidle Hne. unfold render. rewrite Hout.
  rewrite bool_decide_eq_false_2 by (by intros [_ ?]).
  destruct (update_fold_idle σ (emitted r) Hidle Hne) as [Hu Hr].
  destruct (update_fold_store σ (emitted r)) as [Hst _].
  unfold effect, set_state. simpl. rewrite Hu, Hst, Hr.
  rewrite bool_decide_eq_true_2; [done|].
  destruct (emitted r); [done | simpl; lia].
Qed.

(** A transition that emits nothing: if the state is a new one the
    effect runs all the same, and dispatches the updates that the state
    still holds. *)
Lemma render_no_emit σ r st :
  outcome r = inl st → emitted r = [] → st ≠ state σ →
  render script r σ =
    if bool_decide (0 < length (updates σ))
    then match dispatch script (updates σ) (set_ref st (store σ)) with
         | Normal t => Normal (mkCore t st (updates σ) true)
         | Throw e t => Throw e (mkCore t st (updates σ) (resetUpdates σ))
         end
    else Normal (mkCore (set_ref st (store σ)) st (updates σ) (resetUpdates σ)).
Proof.
  intros Hout Hemp Hne. unfold render. rewrite Hout, Hemp.
  rewrite bool_decide_eq_false_2 by (by intros [? _]).
  unfold effect, set_state, set_store. simpl. by case_bool_decide.
Qed.

(** Every render leaves the store as it was or as a dispatch from it
    with the new state in the ref. *)
Lemma render_store σ r :
  store (store_of (render script r σ)) = store σ ∨
  ∃ st us, store (store_of (render script r σ)) =
           store_of (dispatch script us (set_ref st (store σ))).
Proof.
  unfold render. destruct (update_fold_store σ (emitted r)) as [Hst _].
  destruct (outcome r) as [st|e]; simpl; [|by left].
  case_bool_decide; simpl; [by left|]. right. exists st.
  destruct (effect_spec (set_state st (foldl update σ (emitted r)))) as (_ & _ & ->).
  simpl. rewrite Hst. by eexists.
Qed.

Lemma render_state σ r st :
  outcome r = inl st → state (store_of (render script r σ)) = st.
Proof.
  intros Hout. unfold render. rewrite Hout.
  case_bool_decide; simpl; [done|].
  by destruct (effect_spec (set_state st (foldl update σ (emitted r)))) as (-> & _).
Qed.

Lemma effect_committed σ : committed (store_of (effect script σ)).
Proof.
  unfold committed. destruct (effect_spec σ) as (-> & _ & ->).
  by destruct (dispatch_called script
                 (if bool_decide (0 < length (updates σ)) then updates σ else [])
                 (set_ref (state σ) (store σ))) as (-> & _).
Qed.

Lemma render_committed σ r st :
  outcome r = inl st → committed σ → committed (store_of (render script r σ)).
Proof.
  intros Hout Hc. unfold render. rewrite Hout.
  destruct (update_fold_store σ (emitted r)) as [Hst _].
  case_bool_decide as Hd; simpl; [|apply effect_committed].
  unfold committed in *. simpl. rewrite Hst. destruct Hd as [-> _]. done.
Qed.

(** A render that returns, its effect included, leaves the broker
    idle. *)
Lemma render_idle σ σ' r st :
  outcome r = inl st → idle σ → render script r σ = Normal σ' → idle σ'.
Proof.
  intros Hout Hidle.
  destruct (decide (emitted r = [])) as [Hemp|Hne].
  - unfold render. rewrite Hout, Hemp. simpl.
    case_bool_decide; simpl; [by intros [= <-]|].
    unfold effect, idle. simpl. case_bool_decide; simpl.
    + destruct (dispatch script _ _); [by intros [= <-] | done].
    + by intros [= <-].
  - rewrite (render_emitting σ r st) by done.
    destruct (dispatch script _ _); [by intros [= <-] | done].
Qed.

Lemma mount_state ids st : state (mount script ids st) = st.
Proof.
  unfold mount, first_render.
  destruct (effect_spec (foldl update (mkCore (mkStore st ∅ []) st [] false) ids))
    as (-> & _).
  by destruct (update_fold_store (mkCore (mkStore st ∅ []) st [] false) ids) as [_ ->].
Qed.

Lemma mount_idle ids st :
  thrown (first_render script ids st) = None → idle (mount script ids st).
Proof.
  unfold mount, first_render, effect, idle.
  destruct (update_fold_append (mkCore (mkStore st ∅ []) st [] false) ids eq_refl)
    as [Hu Hr].
  case_bool_decide as Hlen; simpl.
  - by destruct (dispatch script _ _).
  - intros _ _. destruct (updates _); [done | simpl in Hlen; lia].
Qed.

Lemma step_committed σ s : committed σ → committed (step script σ s).
Proof.
  intros Hc. destruct s as [r|ids g|ids g]; simpl.
  - destruct (outcome r) as [st|e] eqn:Hout; [by eapply render_committed|].
    rewrite (render_throws σ r e Hout). simpl. unfold committed.
    by destruct (update_fold_store σ (emitted r)) as [-> ->].
  - unfold committed. simpl.
    by destruct (subscribe_spec script ids g (store σ)) as (-> & _).
  - unfold committed. simpl.
    by destruct (unsubscribe_at_spec ids g (store σ)) as (-> & _).
Qed.

Lemma exec_committed σ steps : committed σ → committed (exec script σ steps).
Proof.
  unfold exec. revert σ. induction steps as [|s steps IH]; intros σ Hc; simpl; [done|].
  by apply IH, step_committed.
Qed.

Lemma mount_committed ids st : committed (mount script ids st).
Proof. apply effect_committed. Qed.

(** A step that does not subscribe [f] makes no call to [f] when [f] is
    in no array. *)
Lemma step_silent f σ s :
  unregistered f (store σ) → ¬ subscribes f s →
  silent f (store σ) (store (step script σ s)).
Proof.
  intros Hu Hs. destruct s as [r|ids g|ids g]; simpl.
  - destruct (render_store σ r) as [->|(st & us & ->)]; [by apply silent_refl|].
    eapply silent_trans; [by apply silent_set_ref|].
    apply silent_dispatch. by destruct (silent_set_ref f st (store σ) Hu).
  - by apply silent_subscribe.
  - by apply silent_unsubscribe.
Qed.

Lemma exec_silent f σ steps :
  unregistered f (store σ) → Forall (λ s, ¬ subscribes f s) steps →
  silent f (store σ) (store (exec script σ steps)).
Proof.
  intros Hu Hs. revert σ Hu. unfold exec.
  induction Hs as [|s steps Hs _ IH]; intros σ Hu; simpl; [by apply silent_refl|].
  pose proof (step_silent f σ s Hu Hs) as H1.
  eapply silent_trans; [done|]. apply IH. by destruct H1.
Qed.

Lemma exec_state σ steps :
  state (exec script σ steps) = last_state (state σ) steps.
Proof.
  unfold exec, last_state. revert σ.
  induction steps as [|s steps IH]; intros σ; simpl; [done|].
  rewrite IH. f_equal. destruct s as [r|ids g|ids g]; simpl; [|done..].
  destruct (outcome r) as [st|e] eqn:Hout; [by apply render_state|].
  rewrite (render_throws σ r e Hout). simpl.
  by destruct (update_fold_store σ (emitted r)) as [_ ->].
Qed.

End Facts.

End BrokerFacts.

(** ** Transitions of the broker with a writer *)

Module BrokerWFacts.

Import Registry RegistryFacts StoreFacts React BrokerW.

Lemma areHookInputsEqual_refl {D} `{EqDecision D} (deps : list D) :
  areHookInputsEqual deps deps = true.
Proof. induction deps as [|d deps IH]; [done|]. simpl. by rewrite decide_True. Qed.

(** A second render with the dependencies of the first keeps what the
    first left, whether the first computed or not. *)
Lemma useMemo_again {D V} `{EqDecision D} (prev : Memo D V) (v1 v2 : V) deps :
  useMemo (useMemo prev v1 deps) v2 deps = useMemo prev v1 deps.
Proof.
  unfold useMemo. destruct (areHookInputsEqual deps (memo_deps prev)) eqn:Heq.
  - by rewrite Heq.
  - simpl. by rewrite areHookInputsEqual_refl.
Qed.

(** [objectUnpack] lists the names, then the values. *)
Lemma objectUnpack_fields obj :
  objectUnpack obj = map (λ f, VStr f.1) (w_fields obj) ++ map snd (w_fields obj).
Proof.
  unfold objectUnpack.
  assert (∀ (l : list (string * Value)) ks vs,
    foldl (λ (acc : list Value * list Value) (f : string * Value),
             (acc.1 ++ [VStr f.1], acc.2 ++ [f.2])) (ks, vs) l
    = (ks ++ map (λ f, VStr f.1) l, vs ++ map snd l)) as Hgen.
  { induction l as [|f l IH]; intros ks vs; simpl.
    - by rewrite !app_nil_r.
    - by rewrite IH, <- !app_assoc. }
  by rewrite Hgen.
Qed.

Section Facts.

Context {S : Type} `{EqDecision S}.
Variable script : Sub → S → Script.

Implicit Types (σ : Core S) (r : Run S) (hr : HookResult S).

Lemma renderW_throws σ r e : outcome r = inr e → render script r σ = Throw e σ.
Proof. intros H. unfold render. by rewrite H. Qed.

(** A render that returns dispatches this render's identifiers from a
    store that differs from the old one in the ref at most. *)
Lemma renderW_store σ r hr :
  outcome r = inl hr →
  ∃ t, subs t = subs (store σ) ∧ calls t = calls (store σ) ∧
       (committed σ → ref t = hr_state hr) ∧
       store (store_of (render script r σ))
         = store_of (dispatch script (emitted r) t) ∧
       thrown (render script r σ) = thrown (dispatch script (emitted r) t) ∧
       state (store_of (render script r σ)) = hr_state hr.
Proof.
  intros Hout. unfold render. rewrite Hout. simpl.
  case_decide as Hd.
  - exists (store σ). repeat split.
    + intros Hc. by rewrite Hd.
    + by destruct (dispatch script (emitted r) (store σ)).
    + by destruct (dispatch script (emitted r) (store σ)).
    + by destruct (dispatch script (emitted r) (store σ)).
  - exists (set_ref (hr_state hr) (store σ)). repeat split.
    + by destruct (dispatch script (emitted r) _).
    + by destruct (dispatch script (emitted r) _).
    + by destruct (dispatch script (emitted r) _).
Qed.

Lemma renderW_committed σ r hr :
  outcome r = inl hr → committed σ → committed (store_of (render script r σ)).
Proof.
  intros Hout Hc.
  destruct (renderW_store σ r hr Hout) as (t & _ & _ & Hr & Hst & _ & Hs).
  unfold committed. rewrite Hst, Hs.
  destruct (dispatch_called script (emitted r) t) as (-> & _). by apply Hr.
Qed.

Lemma stepW_committed σ s : committed σ → committed (step script σ s).
Proof.
  intros Hc. destruct s as [r|ids g|ids g]; simpl.
  - destruct (outcome r) as [hr|e] eqn:Hout; [by eapply renderW_committed|].
    by rewrite (renderW_throws σ r e Hout).
  - unfold committed. simpl.
    by destruct (subscribe_spec script ids g (store σ)) as (-> & _).
  - unfold committed. simpl.
    by destruct (unsubscribe_at_spec ids g (store σ)) as (-> & _).
Qed.

Lemma execW_committed σ steps : committed σ → committed (exec script σ steps).
Proof.
  unfold exec. revert σ. induction steps as [|s steps IH]; intros σ Hc; simpl; [done|].
  by apply IH, stepW_committed.
Qed.

Lemma mountW_state ids hr : state (mount script ids hr) = hr_state hr.
Proof. unfold mount, first_render. by destruct (dispatch script ids _). Qed.

Lemma mountW_committed ids hr : committed (mount script ids hr).
Proof.
  unfold committed. rewrite mountW_state. unfold mount, first_render.
  pose proof (dispatch_called script ids
                (set_ref (hr_state hr) (mkStore (hr_state hr) ∅ []))) as (Hr & _).
  by destruct (dispatch script ids _).
Qed.

Lemma stepW_silent f σ s :
  unregistered f (store σ) → ¬ subscribes f s →
  silent f (store σ) (store (step script σ s)).
Proof.
  intros Hu Hs. destruct s as [r|ids g|ids g]; simpl.
  - destruct (outcome r) as [hr|e] eqn:Hout.
    + destruct (renderW_store σ r hr Hout) as (t & Hsubs & Hcalls & _ & -> & _).
      assert (unregistered f t) as Ht by (unfold unregistered; by rewrite Hsubs).
      destruct (silent_dispatch script f (emitted r) t Ht) as [Hu' (new & Hc & Hn)].
      split; [done|]. exists new. by rewrite Hc, Hcalls.
    + rewrite (renderW_throws σ r e Hout). by apply silent_refl.
  - by apply silent_subscribe.
  - by apply silent_unsubscribe.
Qed.

Lemma execW_silent f σ steps :
  unregistered f (store σ) → Forall (λ s, ¬ subscribes f s) steps →
  silent f (store σ) (store (exec script σ steps)).
Proof.
  intros Hu Hs. revert σ Hu. unfold exec.
  induction Hs as [|s steps Hs _ IH]; intros σ Hu; simpl; [by apply silent_refl|].
  pose proof (stepW_silent f σ s Hu Hs) as H1.
  eapply silent_trans; [done|]. apply IH. by destruct H1.
Qed.

Lemma execW_state σ steps :
  state (exec script σ steps) = last_state (state σ) steps.
Proof.
  unfold exec, last_state. revert σ.
  induction steps as [|s steps IH]; intros σ; simpl; [done|].
  rewrite IH. f_equal. destruct s as [r|ids g|ids g]; simpl; [|done..].
  destruct (outcome r) as [hr|e] eqn:Hout.
  - by destruct (renderW_store σ r hr Hout) as (_ & _ & _ & _ & _ & _ & ->).
  - by rewrite (renderW_throws σ r e Hout).
Qed.

End Facts.

End BrokerWFacts.

(** ** Transitions and what subscribers see of them *)

Module Transitions.

Import Registry RegistryFacts StoreFacts Examples.

Section Both.

Context {S : Type} `{EqDecision S}.
Variable script : Sub → S → Script.

Implicit Types (f : Sub) (id : string) (ids : Ids) (st : S) (e : Exn).

(** A pass to subscribers that do not unsubscribe gets through the
    emitted identifiers of [safe] and raises if these are not all; in
    [Broker.tsx] the flag goes up if it does not raise. *)
Lemma pass_emitting_quiet (σ : Broker.Core S) r st :
  Broker.outcome r = inl st → Broker.idle σ → Broker.emitted r ≠ [] →
  quiet_on (flip script st) (Broker.emitted r) (subs (Broker.store σ)) →
  let reached := safe (subs (Broker.store σ)) (Broker.emitted r) in
  Broker.pass script r σ = pass_calls reached (set_ref st (Broker.store σ)) ∧
  thrown (Broker.render script r σ) =
    (if decide (reached = Broker.emitted r) then None else Some TypeError) ∧
  Broker.resetUpdates (store_of (Broker.render script r σ)) =
    bool_decide (reached = Broker.emitted r).
Proof.
  intros Hout Hidle Hne Hq. simpl. unfold Broker.pass.
  rewrite (BrokerFacts.render_emitting script σ r st) by done.
  rewrite dispatch_quiet by done. simpl.
  destruct (decide (safe (subs (Broker.store σ)) (Broker.emitted r) = Broker.emitted r))
    as [Heq|Hneq]; simpl.
  - split; [by apply calls_since_app|]. by rewrite bool_decide_eq_true_2.
  - split; [by apply calls_since_app|]. by rewrite bool_decide_eq_false_2.
Qed.

Lemma passW_quiet (σ : BrokerW.Core S) r hr :
  BrokerW.outcome r = inl hr → BrokerW.committed σ →
  quiet_on (flip script (BrokerW.hr_state hr)) (BrokerW.emitted r)
    (subs (BrokerW.store σ)) →
  let reached := safe (subs (BrokerW.store σ)) (BrokerW.emitted r) in
  BrokerW.pass script r σ =
    pass_calls reached (set_ref (BrokerW.hr_state hr) (BrokerW.store σ)) ∧
  thrown (BrokerW.render script r σ) =
    (if decide (reached = BrokerW.emitted r) then None else Some TypeError).
Proof.
  intros Hout Hc Hq. simpl. unfold BrokerW.pass.
  destruct (BrokerWFacts.renderW_store script σ r hr Hout)
    as (t & Hsubs & Hcalls & Href & -> & -> & _).
  specialize (Href Hc).
  rewrite dispatch_quiet by (by rewrite Href, Hsubs). rewrite Hsubs.
  split.
  - apply calls_since_app.
    destruct (decide (safe _ _ = _)); simpl;
      unfold pass_calls; simpl; by rewrite Hcalls, Href, Hsubs.
  - by destruct (decide (safe _ _ = _)).
Qed.

(** C1, as amended.  The identifiers are dispatched as they were
    emitted, repeats included.  In a transition in which the lookup of
    every emitted identifier finds an array or nothing, and whose
    subscribers do not unsubscribe when handed the new state, the pass
    returns and its calls are those of [pass_calls]: array after array
    in the order of emission.  A subscriber that is once in the array of
    [id], and in the array of no other emitted identifier, is so called
    once for each time [id] was emitted: [N] times for [N] emissions.  In
    [Broker.tsx] this is for a transition that emits [id] at least once,
    from an idle broker. *)
Theorem once_per_emission :
  (∀ (σ : Broker.Core S) r st id f,
     Broker.outcome r = inl st → Broker.idle σ →
     id ∈ Broker.emitted r →
     Forall (plain (subs (Broker.store σ))) (Broker.emitted r) →
     quiet_on (flip script st) (Broker.emitted r) (subs (Broker.store σ)) →
     only_under f id (Broker.emitted r) (subs (Broker.store σ)) →
     thrown (Broker.render script r σ) = None ∧
     Broker.pass script r σ
       = pass_calls (Broker.emitted r) (set_ref st (Broker.store σ)) ∧
     times f (Broker.pass script r σ) = occ id (Broker.emitted r)) ∧
  (∀ (σ : BrokerW.Core S) r hr id f,
     BrokerW.outcome r = inl hr → BrokerW.committed σ →
     Forall (plain (subs (BrokerW.store σ))) (BrokerW.emitted r) →
     quiet_on (flip script (BrokerW.hr_state hr)) (BrokerW.emitted r)
       (subs (BrokerW.store σ)) →
     only_under f id (BrokerW.emitted r) (subs (BrokerW.store σ)) →
     thrown (BrokerW.render script r σ) = None ∧
     BrokerW.pass script r σ
       = pass_calls (BrokerW.emitted r)
           (set_ref (BrokerW.hr_state hr) (BrokerW.store σ)) ∧
     times f (BrokerW.pass script r σ) = occ id (BrokerW.emitted r)).
Proof.
  split.
  - intros σ r st id f Hout Hidle Hin Hp Hq Honly.
    destruct (pass_emitting_quiet σ r st) as (Hpass & Hthrown & _); [done..| |done|].
    { intros Hemp. rewrite Hemp in Hin. by apply not_elem_of_nil in Hin. }
    apply safe_plain in Hp. rewrite Hp in Hpass, Hthrown.
    rewrite decide_True in Hthrown by done.
    split; [done|]. split; [done|]. rewrite Hpass. by apply times_pass_calls.
  - intros σ r hr id f Hout Hc Hp Hq Honly.
    destruct (passW_quiet σ r hr Hout Hc Hq) as (Hpass & Hthrown).
    apply safe_plain in Hp. rewrite Hp in Hpass, Hthrown.
    rewrite decide_True in Hthrown by done.
    split; [done|]. split; [done|]. rewrite Hpass. by apply times_pass_calls.
Qed.




(** What holds of transitions that emit nothing.  With a writer: no
    call at all, and the new state is in the ref.  In [Broker.tsx]: the
    new state is in the ref, and there is no call as long as no
    transition has emitted before. *)
(** X22.  The broker with a writer, a transition that emits nothing:
    no subscriber is called, and the ref holds the new state. *)
Lemma no_emit_W (σ : BrokerW.Core S) r hr :
  BrokerW.outcome r = inl hr → BrokerW.emitted r = [] → BrokerW.committed σ →
  BrokerW.pass script r σ = [] ∧
  ref (BrokerW.store (store_of (BrokerW.render script r σ))) = BrokerW.hr_state hr.
Proof.
  intros Hout Hemp Hc. unfold BrokerW.pass.
  destruct (BrokerWFacts.renderW_store script σ r hr Hout)
    as (t & Hsubs & Hcalls & Href & -> & _).
  rewrite Hemp. simpl. split; [|by apply Href].
  unfold calls_since. by rewrite Hcalls, drop_all.
Qed.

Lemma no_emit_snapshot (σ : Broker.Core S) r st :
  Broker.outcome r = inl st → Broker.committed σ →
  ref (Broker.store (store_of (Broker.render script r σ))) = st.
Proof.
  intros Hout Hc.
  pose proof (BrokerFacts.render_committed script σ r st Hout Hc) as Hc'.
  unfold Broker.committed in Hc'. rewrite Hc'.
  by apply BrokerFacts.render_state.
Qed.

Lemma no_emit_nothing_pending (σ : Broker.Core S) r st :
  Broker.outcome r = inl st → Broker.emitted r = [] → Broker.updates σ = [] →
  Broker.pass script r σ = [].
Proof.
  intros Hout Hemp Hu. unfold Broker.pass, Broker.render. rewrite Hout, Hemp. simpl.
  unfold calls_since.
  case_bool_decide; simpl; [by rewrite drop_all|].
  unfold Broker.effect. simpl. rewrite Hu. simpl. by rewrite drop_all.
Qed.

(** C8.  When the hook throws, the render ends there: the exception
    is what the render completes with, no effect runs, so the store is
    the one before the render (no subscriber was called, the arrays are
    the same) and the ref still holds the state committed before.  A
    [subscribe] that comes next and gets through its loop calls the
    subscriber once, with that state; one that raises in its loop calls
    nobody. *)
Theorem throw_keeps_snapshot :
  (∀ (σ : Broker.Core S) r e ids f,
     Broker.outcome r = inr e → Broker.committed σ →
     let c := Broker.render script r σ in
     thrown c = Some e ∧
     Broker.store (store_of c) = Broker.store σ ∧
     ref (Broker.store (store_of c)) = Broker.state σ ∧
     calls_since (Broker.store σ)
       (store_of (subscribe script ids f (Broker.store (store_of c))))
       = (if decide (Forall (plain (subs (Broker.store σ))) (unscalar ids))
          then [(f, Broker.state σ)] else [])) ∧
  (∀ (σ : BrokerW.Core S) r e ids f,
     BrokerW.outcome r = inr e → BrokerW.committed σ →
     let c := BrokerW.render script r σ in
     thrown c = Some e ∧
     BrokerW.store (store_of c) = BrokerW.store σ ∧
     ref (BrokerW.store (store_of c)) = BrokerW.state σ ∧
     calls_since (BrokerW.store σ)
       (store_of (subscribe script ids f (BrokerW.store (store_of c))))
       = (if decide (Forall (plain (subs (BrokerW.store σ))) (unscalar ids))
          then [(f, BrokerW.state σ)] else [])).
Proof.
  split.
  - intros σ r e ids f Hout Hc. simpl.
    rewrite (BrokerFacts.render_throws script σ r e Hout). simpl.
    destruct (BrokerFacts.update_fold_store σ (Broker.emitted r)) as [-> _].
    repeat split; [done|].
    apply calls_since_app.
    destruct (subscribe_spec script ids f (Broker.store σ)) as (_ & _ & ->).
    by rewrite Hc.
  - intros σ r e ids f Hout Hc. simpl.
    rewrite (BrokerWFacts.renderW_throws script σ r e Hout). simpl.
    repeat split; [done|].
    apply calls_since_app.
    destruct (subscribe_spec script ids f (BrokerW.store σ)) as (_ & _ & ->).
    by rewrite Hc.
Qed.

(** C10.  [subscribe([], sub)] pushes [sub] nowhere and calls it once
    with the snapshot.  If [sub] was in no array, then whatever follows
    (renders, returning or throwing, and subscriptions and
    unsubscriptions, so long as nobody subscribes [sub]) makes no call
    to it. *)
Theorem subscribe_nothing :
  (∀ (σ : Broker.Core S) f steps,
     unregistered f (Broker.store σ) →
     Forall (λ s, ¬ Broker.subscribes f s) steps →
     let σ1 := Broker.step script σ (Broker.Subscribe (Array []) f) in
     register (unscalar (Array [])) f (subs (Broker.store σ))
       = Normal (subs (Broker.store σ)) ∧
     calls_since (Broker.store σ) (Broker.store σ1) = [(f, ref (Broker.store σ))] ∧
     times f (calls_since (Broker.store σ1)
                (Broker.store (Broker.exec script σ1 steps))) = 0) ∧
  (∀ (σ : BrokerW.Core S) f steps,
     unregistered f (BrokerW.store σ) →
     Forall (λ s, ¬ BrokerW.subscribes f s) steps →
     let σ1 := BrokerW.step script σ (BrokerW.Subscribe (Array []) f) in
     register (unscalar (Array [])) f (subs (BrokerW.store σ))
       = Normal (subs (BrokerW.store σ)) ∧
     calls_since (BrokerW.store σ) (BrokerW.store σ1) = [(f, ref (BrokerW.store σ))] ∧
     times f (calls_since (BrokerW.store σ1)
                (BrokerW.store (BrokerW.exec script σ1 steps))) = 0).
Proof.
  split.
  - intros σ f steps Hu Hsteps σ1. split; [done|].
    destruct (subscribe_spec script (Array []) f (Broker.store σ)) as (_ & Hs & Hcs).
    rewrite decide_True in Hcs by constructor.
    split; [by apply calls_since_app|].
    assert (unregistered f (Broker.store σ1)) as Hu1.
    { eapply unregistered_shrunk; [apply Hs|]. by destruct σ as [[]]. }
    destruct (BrokerFacts.exec_silent script f σ1 steps Hu1 Hsteps)
      as [_ (new & Hc & Hn)].
    by rewrite (calls_since_app _ _ _ Hc).
  - intros σ f steps Hu Hsteps σ1. split; [done|].
    destruct (subscribe_spec script (Array []) f (BrokerW.store σ)) as (_ & Hs & Hcs).
    rewrite decide_True in Hcs by constructor.
    split; [by apply calls_since_app|].
    assert (unregistered f (BrokerW.store σ1)) as Hu1.
    { eapply unregistered_shrunk; [apply Hs|]. by destruct σ as [[]]. }
    destruct (BrokerWFacts.execW_silent script f σ1 steps Hu1 Hsteps)
      as [_ (new & Hc & Hn)].
    by rewrite (calls_since_app _ _ _ Hc).
Qed.

(** C7, as amended.  Two renders in a row whose writers have the same
    fields in the same order, name by name and value by value, whatever
    the two states and even when the second writer is a new object: the
    second render keeps the memoised writer of the first, the value of
    the writer context is the same object, and [useWriter] returns the
    same writer. *)
Theorem writer_stable (p : BrokerW.Provider S) r1 r2 hr1 hr2 :
  BrokerW.outcome r1 = inl hr1 →
  BrokerW.outcome r2 = inl hr2 →
  BrokerW.w_fields (BrokerW.hr_writer hr2) = BrokerW.w_fields (BrokerW.hr_writer hr1) →
  let p1 := store_of (BrokerW.provide script r1 p) in
  let p2 := store_of (BrokerW.provide script r2 p1) in
  BrokerW.w (BrokerW.core p2) = BrokerW.w (BrokerW.core p1) ∧
  BrokerW.writerCtx p2 = BrokerW.writerCtx p1 ∧
  BrokerW.useWriter p2 = BrokerW.useWriter p1.
Proof.
  intros Hout1 Hout2 Hfields. simpl.
  assert (BrokerW.objectUnpack (BrokerW.hr_writer hr2)
          = BrokerW.objectUnpack (BrokerW.hr_writer hr1)) as Hdeps.
  { by rewrite !BrokerWFacts.objectUnpack_fields, Hfields. }
  unfold BrokerW.useWriter, BrokerW.provide, BrokerW.render.
  rewrite Hout1. destruct (dispatch script (BrokerW.emitted r1) _); simpl;
    rewrite Hout2; destruct (dispatch script (BrokerW.emitted r2) _); simpl;
    by rewrite Hdeps, !BrokerWFacts.useMemo_again.
Qed.

End Both.

Section TransitionsAtWork.

#[local] Open Scope string_scope.

Lemma broker_subs : subs (Broker.store broker) = {["a" := [1]]}.
Proof. by vm_compute. Qed.

Lemma brokerW_subs : subs (BrokerW.store brokerW) = {["a" := [1]]}.
Proof. by vm_compute. Qed.

Lemma once_per_emission_witness :
  (thrown (Broker.render quiet a_twice broker) = None ∧
   Broker.pass quiet a_twice broker
     = pass_calls ["a"; "a"] (set_ref 1 (Broker.store broker)) ∧
   times 1 (Broker.pass quiet a_twice broker) = occ "a" ["a"; "a"]) ∧
  (thrown (BrokerW.render quiet a_twiceW brokerW) = None ∧
   BrokerW.pass quiet a_twiceW brokerW
     = pass_calls ["a"; "a"] (set_ref 1 (BrokerW.store brokerW)) ∧
   times 1 (BrokerW.pass quiet a_twiceW brokerW) = occ "a" ["a"; "a"]).
Proof.
  split.
  - apply (proj1 (once_per_emission quiet) broker a_twice 1 "a" 1).
    + reflexivity.
    + by vm_compute.
    + left.
    + repeat constructor; by vm_compute.
    + by intros id s f _ _ _.
    + split; [by vm_compute|]. intros id' Hin Hne. simpl in Hin.
      rewrite !elem_of_cons in Hin. destruct Hin as [?|[?|Hin]]; [done..|].
      by apply not_elem_of_nil in Hin.
  - apply (proj2 (once_per_emission quiet) brokerW a_twiceW
             (BrokerW.mkHookResult 1 (writer 101)) "a" 1).
    + reflexivity.
    + by vm_compute.
    + repeat constructor; by vm_compute.
    + by intros id s f _ _ _.
    + split; [by vm_compute|]. intros id' Hin Hne. simpl in Hin.
      rewrite !elem_of_cons in Hin. destruct Hin as [?|[?|Hin]]; [done..|].
      by apply not_elem_of_nil in Hin.
Defined.

(** C1 as stated fails in both brokers: ["a"] emitted twice in one
    transition, subscriber 1 of ["a"] is called twice.  And when
    ["toString"] is emitted before ["a"], the loop over what is found
    under ["toString"], a function, raises: subscriber 1 of ["a"] is not
    called at all. *)
Lemma emitted_twice_called_twice :
  Broker.pass quiet a_twice broker = [(1, 1); (1, 1)] ∧
  times 1 (Broker.pass quiet a_twice broker) = 2 ∧
  BrokerW.pass quiet a_twiceW brokerW = [(1, 1); (1, 1)] ∧
  times 1 (BrokerW.pass quiet a_twiceW brokerW) = 2 ∧
  thrown (Broker.render quiet toString_a broker) = Some TypeError ∧
  Broker.pass quiet toString_a broker = [] ∧
  thrown (BrokerW.render quiet toString_aW brokerW) = Some TypeError ∧
  BrokerW.pass quiet toString_aW brokerW = [].
Proof. by vm_compute. Qed.

(** C3 on [Broker.tsx].  After the transition that emitted ["a"] and its
    pass, the updates are still there, with the flag up; the next
    transition changes the state and emits nothing, its effect finds
    them, and subscriber 1 of ["a"] is called again, with state [2]. *)
Theorem stale_updates_dispatched_again :
  Broker.updates broker_after_a = ["a"] ∧
  Broker.resetUpdates broker_after_a = true ∧
  Broker.emitted no_emit = [] ∧
  Broker.pass quiet no_emit broker_after_a = [(1, 2)].
Proof. by vm_compute. Qed.

(** C5 on [Broker.tsx].  The transition emits no identifier, subscriber
    1 is under ["a"] only, and it is called once. *)
Theorem unrelated_subscriber_called :
  Broker.emitted no_emit = [] ∧
  subs (Broker.store broker_after_a) = {["a" := [1]]} ∧
  times 1 (Broker.pass quiet no_emit broker_after_a) = 1.
Proof. by vm_compute. Qed.

(** C6 on [Broker.tsx].  The transition emits no identifier; the ref
    takes the new state, [2], and yet a subscriber is called. *)
Theorem no_emit_still_calls :
  Broker.emitted no_emit = [] ∧
  ref (Broker.store (store_of (Broker.render quiet no_emit broker_after_a))) = 2 ∧
  Broker.pass quiet no_emit broker_after_a ≠ [].
Proof. split; [done|]. split; [by vm_compute|]. by vm_compute. Qed.

(** The same transitions with a writer: nothing is left over. *)
Example no_emit_W_silent : BrokerW.pass quiet no_emitW brokerW_after_a = [].
Proof. by vm_compute. Qed.

Lemma throw_keeps_snapshot_witness :
  (let c := Broker.render quiet throwing broker_after_a in
   thrown c = Some "boom" ∧
   Broker.store (store_of c) = Broker.store broker_after_a ∧
   ref (Broker.store (store_of c)) = Broker.state broker_after_a ∧
   calls_since (Broker.store broker_after_a)
     (store_of (subscribe quiet (Scalar "a") 2 (Broker.store (store_of c))))
     = (if decide (Forall (plain (subs (Broker.store broker_after_a)))
                     (unscalar (Scalar "a")))
        then [(2, Broker.state broker_after_a)] else [])) ∧
  (let c := BrokerW.render quiet throwingW brokerW_after_a in
   thrown c = Some "boom" ∧
   BrokerW.store (store_of c) = BrokerW.store brokerW_after_a ∧
   ref (BrokerW.store (store_of c)) = BrokerW.state brokerW_after_a ∧
   calls_since (BrokerW.store brokerW_after_a)
     (store_of (subscribe quiet (Scalar "a") 2 (BrokerW.store (store_of c))))
     = (if decide (Forall (plain (subs (BrokerW.store brokerW_after_a)))
                     (unscalar (Scalar "a")))
        then [(2, BrokerW.state brokerW_after_a)] else [])).
Proof.
  split.
  - apply (proj1 (throw_keeps_snapshot quiet) broker_after_a throwing "boom" (Scalar "a") 2).
    + reflexivity.
    + by vm_compute.
  - apply (proj2 (throw_keeps_snapshot quiet) brokerW_after_a throwingW "boom" (Scalar "a") 2).
    + reflexivity.
    + by vm_compute.
Defined.

(** C8 at work: after the render that threw, subscriber 2 is called
    with the state committed before, [1]. *)
Example throw_keeps_snapshot_a :
  let c := Broker.render quiet throwing broker_after_a in
  calls_since (Broker.store broker_after_a)
    (store_of (subscribe quiet (Scalar "a") 2 (Broker.store (store_of c))))
    = [(2, 1)].
Proof. by vm_compute. Qed.

Lemma subscribe_nothing_witness :
  (let σ1 := Broker.step quiet broker (Broker.Subscribe (Array []) 9) in
   register (unscalar (Array [])) 9 (subs (Broker.store broker))
     = Normal (subs (Broker.store broker)) ∧
   calls_since (Broker.store broker) (Broker.store σ1) = [(9, ref (Broker.store broker))] ∧
   times 9 (calls_since (Broker.store σ1) (Broker.store (Broker.exec quiet σ1 life))) = 0) ∧
  (let σ1 := BrokerW.step quiet brokerW (BrokerW.Subscribe (Array []) 9) in
   register (unscalar (Array [])) 9 (subs (BrokerW.store brokerW))
     = Normal (subs (BrokerW.store brokerW)) ∧
   calls_since (BrokerW.store brokerW) (BrokerW.store σ1) = [(9, ref (BrokerW.store brokerW))] ∧
   times 9 (calls_since (BrokerW.store σ1) (BrokerW.store (BrokerW.exec quiet σ1 lifeW))) = 0).
Proof.
  split.
  - apply (proj1 (subscribe_nothing quiet) broker 9 life).
    + intros id s. rewrite broker_subs. intros [<- <-]%lookup_singleton_Some.
      rewrite list_elem_of_singleton. lia.
    + repeat constructor; simpl; (done || lia).
  - apply (proj2 (subscribe_nothing quiet) brokerW 9 lifeW).
    + intros id s. rewrite brokerW_subs. intros [<- <-]%lookup_singleton_Some.
      rewrite list_elem_of_singleton. lia.
    + repeat constructor; simpl; (done || lia).
Defined.

Lemma writer_stable_witness :
  let r1 := BrokerW.mkRun [] (inl (BrokerW.mkHookResult 1 (writer 101))) in
  let r2 := BrokerW.mkRun ["a"] (inl (BrokerW.mkHookResult 2 (writer 102))) in
  let p1 := store_of (BrokerW.provide quiet r1 provider) in
  let p2 := store_of (BrokerW.provide quiet r2 p1) in
  BrokerW.w (BrokerW.core p2) = BrokerW.w (BrokerW.core p1) ∧
  BrokerW.writerCtx p2 = BrokerW.writerCtx p1 ∧
  BrokerW.useWriter p2 = BrokerW.useWriter p1.
Proof.
  apply (writer_stable quiet provider _ _
           (BrokerW.mkHookResult 1 (writer 101)) (BrokerW.mkHookResult 2 (writer 102)));
    reflexivity.
Defined.

(** C7 as stated fails.  Two renders in a row return writers with the
    same two fields, ["a"] at address [7] and ["b"] at address [8], built
    in the one order and in the other.  Field by field nothing differs,
    but [objectUnpack] lists the names and the values in the order of
    the object, the two dependency arrays differ, and the second render
    memoises its own writer: [useWriter] returns a new object. *)
Lemma writer_reordered_recomputed :
  let r1 := BrokerW.mkRun [] (inl (BrokerW.mkHookResult 1 (writer_ab 101))) in
  let r2 := BrokerW.mkRun [] (inl (BrokerW.mkHookResult 2 (writer_ba 102))) in
  let p1 := store_of (BrokerW.provide quiet r1 provider) in
  let p2 := store_of (BrokerW.provide quiet r2 p1) in
  BrokerW.w_fields (writer_ba 102) ≡ₚ BrokerW.w_fields (writer_ab 101) ∧
  BrokerW.objectUnpack (writer_ab 101) = [VStr "a"; VStr "b"; VRef 7; VRef 8] ∧
  BrokerW.objectUnpack (writer_ba 102) = [VStr "b"; VStr "a"; VRef 8; VRef 7] ∧
  BrokerW.useWriter p1 = writer_ab 101 ∧
  BrokerW.useWriter p2 = writer_ba 102 ∧
  BrokerW.useWriter p2 ≠ BrokerW.useWriter p1.
Proof.
  simpl. split; [apply Permutation_swap|]. by vm_compute.
Qed.

(** Over those two renders the writer context keeps the object of the
    first render of all, while the state context gets a new one each
    time. *)
Example contexts_after_two_renders :
  let r1 := BrokerW.mkRun [] (inl (BrokerW.mkHookResult 1 (writer 101))) in
  let r2 := BrokerW.mkRun ["a"] (inl (BrokerW.mkHookResult 2 (writer 102))) in
  let p2 := store_of (BrokerW.provide quiet r2 (store_of (BrokerW.provide quiet r1 provider))) in
  BrokerW.w_addr (BrokerW.useWriter p2) = 100 ∧
  BrokerW.ctx_addr (React.memo_value (BrokerW.writerCtx p2)) = 0 ∧
  BrokerW.ctx_addr (React.memo_value (BrokerW.stateCtx p2)) = 2.
Proof. by vm_compute. Qed.

End TransitionsAtWork.

End Transitions.


(** * More of the engine *)

(** ** Laws of the subscription map *)

Module Laws.

Import Registry RegistryFacts StoreFacts Examples.

(** X1.  [unsubscribe(ids, sub)] undoes [subscribe(ids, sub)] for a
    subscriber that was in none of the arrays.  Both loops get through
    the same identifiers, those listed before the first one whose lookup
    finds an inherited property, and raise there if there is one; every
    array has its former content again.  An array that [subscribe]
    created stays, empty; the key is not removed. *)
Theorem subscribe_then_unsubscribe (m : Subs) ids sub id :
  (∀ i, i ∈ unscalar ids → ¬ registered sub i m) →
  let reached := safe m (unscalar ids) in
  let m1 := store_of (register (unscalar ids) sub m) in
  thrown (unsubscribe ids sub m1) = thrown (register (unscalar ids) sub m) ∧
  thrown (register (unscalar ids) sub m)
    = (if decide (reached = unscalar ids) then None else Some TypeError) ∧
  store_of (unsubscribe ids sub m1) !! id =
    if decide (id ∈ reached) then Some (default [] (m !! id)) else m !! id.
Proof.
  intros Hfresh. simpl.
  rewrite unsubscribe_thrown, register_thrown, unsubscribe_lookup, register_lookup.
  rewrite register_safe_same. split; [done|]. split; [done|].
  case_decide as Hin; simpl.
  - f_equal. apply iter_remove_first_replicate.
    destruct (m !! id) as [s|] eqn:Hs; simpl; [|apply not_elem_of_nil].
    intros Hf. apply elem_of_safe in Hin as [Hin _].
    apply (Hfresh id Hin). by exists s.
  - apply occ_absent in Hin. rewrite Hin. by destruct (m !! id).
Qed.

(** X2.  [unsubscribe(id, sub)] takes out the first occurrence of [sub]
    in the array of [id]: what was before it and what was after it stay,
    in order, later occurrences included. *)
Theorem unsubscribe_first_occurrence (m : Subs) id sub pre post :
  m !! id = Some (pre ++ sub :: post) → sub ∉ pre →
  unsubscribe (Scalar id) sub m = Normal (<[id := pre ++ post]> m).
Proof.
  intros Hm Hpre.
  assert (Forall (plain m) (unscalar (Scalar id))) as Hp.
  { repeat constructor. by eapply plain_Some. }
  rewrite (unsubscribe_plain _ _ _ Hp). f_equal.
  apply map_eq. intros i. rewrite unsubscribe_lookup.
  apply safe_plain in Hp. rewrite Hp. simpl.
  rewrite occ_cons, occ_nil. destruct (decide (id = i)) as [<-|Hne].
  - rewrite lookup_insert_eq, Hm. simpl.
    by rewrite remove_first_app, remove_first_cons_eq.
  - rewrite lookup_insert_ne by done. by destruct (m !! i).
Qed.

(** X3.  [unsubscribe(ids, sub)] gets through the identifiers listed
    before the first one whose lookup finds an inherited property, and
    raises there if there is one.  From the array of each identifier it
    removes as many occurrences of [sub] as the identifier is listed
    among those it got through, or all of them if there are fewer; the
    other subscribers stay as often as they were, and no array changes
    its order. *)
Theorem unsubscribe_counts (m : Subs) ids sub id g :
  let reached := safe m (unscalar ids) in
  let m' := store_of (unsubscribe ids sub m) in
  occ g (default [] (m' !! id)) =
    occ g (default [] (m !! id))
    - (if decide (g = sub) then occ id reached else 0) ∧
  sublist (default [] (m' !! id)) (default [] (m !! id)) ∧
  thrown (unsubscribe ids sub m)
    = (if decide (reached = unscalar ids) then None else Some TypeError).
Proof.
  simpl. split; [apply unsubscribe_occ|]. split; [|apply unsubscribe_thrown].
  rewrite unsubscribe_lookup.
  destruct (m !! id) as [s|]; simpl; [apply iter_remove_first_sublist | done].
Qed.

Section Passes.

Context {S : Type}.
Variable script : Sub → S → Script.

(** X4.  Whatever the subscribers do when called, a dispatch calls only
    subscribers that were, when it started, in the array of one of the
    dispatched identifiers; it hands each of them [ref.current], which it
    does not change; and it leaves the map with the same keys and arrays
    that have only lost elements. *)
Theorem dispatch_calls_registered updates (σ : Store S) :
  let σ' := store_of (dispatch script updates σ) in
  ref σ' = ref σ ∧
  dom (subs σ') = dom (subs σ) ∧
  shrunk (subs σ') (subs σ) ∧
  Forall (λ c, (∃ id, id ∈ updates ∧ registered c.1 id (subs σ)) ∧ c.2 = ref σ)
         (calls_since σ σ').
Proof.
  simpl. destruct (dispatch_called script updates σ) as (Hr & Hs & new & Hc & Hnew).
  rewrite (calls_since_app _ _ _ Hc). repeat split; [done| |done..].
  by apply shrunk_dom.
Qed.

End Passes.

Section LawsAtWork.

#[local] Open Scope string_scope.

Lemma subscribe_then_unsubscribe_witness :
  let ids := Array ["a"; "b"; "a"] in
  let reached := safe (subs three) (unscalar ids) in
  let m1 := store_of (register (unscalar ids) 5 (subs three)) in
  thrown (unsubscribe ids 5 m1) = thrown (register (unscalar ids) 5 (subs three)) ∧
  thrown (register (unscalar ids) 5 (subs three))
    = (if decide (reached = unscalar ids) then None else Some TypeError) ∧
  store_of (unsubscribe ids 5 m1) !! "b" =
    if decide ("b" ∈ reached) then Some (default [] (subs three !! "b"))
    else subs three !! "b".
Proof.
  apply (subscribe_then_unsubscribe (subs three) (Array ["a"; "b"; "a"]) 5 "b").
  intros i _ (s & Hs & Hin).
  rewrite Engine.three_subs in Hs. apply lookup_singleton_Some in Hs as [_ <-].
  revert Hin. rewrite !elem_of_cons, elem_of_nil. lia.
Defined.

(** X1 at work with a name of [Object.prototype] in the middle: both
    calls raise at ["toString"]; ["a"], listed before it, has its former
    array again, and ["b"], listed after it, never had one. *)
Example subscribe_then_unsubscribe_toString :
  let ids := Array ["a"; "toString"; "b"] in
  let m1 := store_of (register (unscalar ids) 5 (subs three)) in
  safe (subs three) (unscalar ids) = ["a"] ∧
  m1 !! "a" = Some [1; 2; 3; 5] ∧
  thrown (unsubscribe ids 5 m1) = Some TypeError ∧
  store_of (unsubscribe ids 5 m1) = subs three.
Proof. by vm_compute. Qed.

Lemma unsubscribe_first_occurrence_witness :
  unsubscribe (Scalar "a") 1 (<["a" := [2; 1; 3; 1]]> ∅)
    = Normal (<["a" := [2; 3; 1]]> (<["a" := [2; 1; 3; 1]]> ∅)).
Proof.
  apply (unsubscribe_first_occurrence (<["a" := [2; 1; 3; 1]]> ∅) "a" 1 [2] [3; 1]).
  - by rewrite lookup_insert_eq.
  - rewrite list_elem_of_singleton. lia.
Defined.

End LawsAtWork.

End Laws.

(** ** Histories of a broker *)

Module Histories.

Import Registry RegistryFacts StoreFacts Laws Examples.

Section Both.

Context {S : Type} `{EqDecision S}.
Variable script : Sub → S → Script.

(** What a step makes of the map: arrays that have lost elements, after a
    registration if the step is a [subscribe]. *)
Lemma step_shape (σ : Broker.Core S) s :
  shrunk (subs (Broker.store (Broker.step script σ s)))
    (match s with
     | Broker.Subscribe ids g =>
         store_of (register (unscalar ids) g (subs (Broker.store σ)))
     | _ => subs (Broker.store σ)
     end).
Proof.
  destruct s as [r|ids g|ids g]; simpl.
  - destruct (BrokerFacts.render_store script σ r) as [->|(st & us & ->)];
      [apply shrunk_refl|].
    by destruct (dispatch_called script us (set_ref st (Broker.store σ))) as (_ & ? & _).
  - by destruct (subscribe_spec script ids g (Broker.store σ)) as (_ & ? & _).
  - destruct (unsubscribe_at_spec ids g (Broker.store σ)) as (_ & _ & -> & _).
    apply unsubscribe_shrunk.
Qed.

Lemma stepW_shape (σ : BrokerW.Core S) s :
  shrunk (subs (BrokerW.store (BrokerW.step script σ s)))
    (match s with
     | BrokerW.Subscribe ids g =>
         store_of (register (unscalar ids) g (subs (BrokerW.store σ)))
     | _ => subs (BrokerW.store σ)
     end).
Proof.
  destruct s as [r|ids g|ids g]; simpl.
  - destruct (BrokerW.outcome r) as [hr|e] eqn:Hout.
    + destruct (BrokerWFacts.renderW_store script σ r hr Hout)
        as (t & Hsubs & _ & _ & -> & _).
      rewrite <- Hsubs. by destruct (dispatch_called script (BrokerW.emitted r) t) as (_ & ? & _).
    + rewrite (BrokerWFacts.renderW_throws script σ r e Hout). apply shrunk_refl.
  - by destruct (subscribe_spec script ids g (BrokerW.store σ)) as (_ & ? & _).
  - destruct (unsubscribe_at_spec ids g (BrokerW.store σ)) as (_ & _ & -> & _).
    apply unsubscribe_shrunk.
Qed.

(** X5.  No step of either broker removes a key of the map: an identifier
    that has an array keeps one, through renders, subscriptions and
    unsubscriptions, even when the array is empty. *)
Theorem keys_stay :
  (∀ (σ : Broker.Core S) steps,
     dom (subs (Broker.store σ))
       ⊆ dom (subs (Broker.store (Broker.exec script σ steps)))) ∧
  (∀ (σ : BrokerW.Core S) steps,
     dom (subs (BrokerW.store σ))
       ⊆ dom (subs (BrokerW.store (BrokerW.exec script σ steps)))).
Proof.
  split.
  - intros σ steps. revert σ. unfold Broker.exec.
    induction steps as [|s steps IH]; intros σ; simpl; [done|].
    etrans; [|apply IH]. rewrite (shrunk_dom _ _ (step_shape σ s)).
    destruct s; [done | apply register_dom | done].
  - intros σ steps. revert σ. unfold BrokerW.exec.
    induction steps as [|s steps IH]; intros σ; simpl; [done|].
    etrans; [|apply IH]. rewrite (shrunk_dom _ _ (stepW_shape σ s)).
    destruct s; [done | apply register_dom | done].
Qed.

(** What a lookup inherits is the same after any history: the names of
    [Object.prototype] never get an array. *)
Lemma exec_plain (σ : Broker.Core S) steps i :
  plain (subs (Broker.store (Broker.exec script σ steps))) i
    ↔ plain (subs (Broker.store σ)) i.
Proof.
  revert σ. unfold Broker.exec.
  induction steps as [|s steps IH]; intros σ; simpl; [done|].
  rewrite IH, (shrunk_plain _ _ i (step_shape σ s)).
  destruct s; [done | apply register_plain_iff | done].
Qed.

Lemma execW_plain (σ : BrokerW.Core S) steps i :
  plain (subs (BrokerW.store (BrokerW.exec script σ steps))) i
    ↔ plain (subs (BrokerW.store σ)) i.
Proof.
  revert σ. unfold BrokerW.exec.
  induction steps as [|s steps IH]; intros σ; simpl; [done|].
  rewrite IH, (shrunk_plain _ _ i (stepW_shape σ s)).
  destruct s; [done | apply register_plain_iff | done].
Qed.

(** A subscriber that nobody subscribes is in no array more often than
    before. *)
Lemma exec_occ (σ : Broker.Core S) steps f id :
  Forall (λ s, ¬ Broker.subscribes f s) steps →
  occ f (default [] (subs (Broker.store (Broker.exec script σ steps)) !! id))
    ≤ occ f (default [] (subs (Broker.store σ) !! id)).
Proof.
  intros Hsteps. revert σ. unfold Broker.exec.
  induction Hsteps as [|s steps Hs _ IH]; intros σ; simpl; [done|].
  etrans; [apply IH|]. etrans; [apply (shrunk_occ _ _ f id (step_shape σ s))|].
  destruct s as [r|ids g|ids g]; [done| |done].
  rewrite register_occ_ne; [done|]. intros ->. by apply Hs.
Qed.

Lemma execW_occ (σ : BrokerW.Core S) steps f id :
  Forall (λ s, ¬ BrokerW.subscribes f s) steps →
  occ f (default [] (subs (BrokerW.store (BrokerW.exec script σ steps)) !! id))
    ≤ occ f (default [] (subs (BrokerW.store σ) !! id)).
Proof.
  intros Hsteps. revert σ. unfold BrokerW.exec.
  induction Hsteps as [|s steps Hs _ IH]; intros σ; simpl; [done|].
  etrans; [apply IH|]. etrans; [apply (shrunk_occ _ _ f id (stepW_shape σ s))|].
  destruct s as [r|ids g|ids g]; [done| |done].
  rewrite register_occ_ne; [done|]. intros ->. by apply Hs.
Qed.

Lemma unregistered_occ f (τ : Store S) :
  unregistered f τ ↔ ∀ id, occ f (default [] (subs τ !! id)) = 0.
Proof.
  rewrite unregistered_not_registered.
  split; intros H id; by apply not_registered_occ.
Qed.

(** X6.  The life of a subscription.  A subscriber that was in no array
    subscribes for [ids]; renders, and subscriptions and unsubscriptions
    of others, follow; it unsubscribes for the same [ids].  From then on
    it is in no array, and nothing that follows calls it, as long as
    nobody subscribes it again.  In both brokers. *)
Theorem unsubscribed_for_good :
  (∀ (σ : Broker.Core S) ids f during later,
     unregistered f (Broker.store σ) →
     Forall (λ s, ¬ Broker.subscribes f s) during →
     Forall (λ s, ¬ Broker.subscribes f s) later →
     let σ1 := Broker.exec script (Broker.step script σ (Broker.Subscribe ids f)) during in
     let σ2 := Broker.step script σ1 (Broker.Unsubscribe ids f) in
     unregistered f (Broker.store σ2) ∧
     times f (calls_since (Broker.store σ2)
                (Broker.store (Broker.exec script σ2 later))) = 0) ∧
  (∀ (σ : BrokerW.Core S) ids f during later,
     unregistered f (BrokerW.store σ) →
     Forall (λ s, ¬ BrokerW.subscribes f s) during →
     Forall (λ s, ¬ BrokerW.subscribes f s) later →
     let σ1 := BrokerW.exec script (BrokerW.step script σ (BrokerW.Subscribe ids f)) during in
     let σ2 := BrokerW.step script σ1 (BrokerW.Unsubscribe ids f) in
     unregistered f (BrokerW.store σ2) ∧
     times f (calls_since (BrokerW.store σ2)
                (BrokerW.store (BrokerW.exec script σ2 later))) = 0).
Proof.
  split.
  - intros σ ids f during later Hu Hd Hl σ1 σ2.
    set (σ0 := Broker.step script σ (Broker.Subscribe ids f)) in σ1.
    assert (unregistered f (Broker.store σ2)) as Hu2.
    { apply unregistered_occ. intros id. unfold σ2. simpl.
      destruct (unsubscribe_at_spec ids f (Broker.store σ1)) as (_ & _ & -> & _).
      rewrite unsubscribe_occ, decide_True by done.
      assert (safe (subs (Broker.store σ1)) (unscalar ids)
              = safe (subs (Broker.store σ)) (unscalar ids)) as ->.
      { apply safe_ext. intros i. unfold σ1. rewrite exec_plain. unfold σ0.
        rewrite (shrunk_plain _ _ i (step_shape σ (Broker.Subscribe ids f))).
        apply register_plain_iff. }
      pose proof (exec_occ σ0 during f id Hd) as H1.
      pose proof (shrunk_occ _ _ f id (step_shape σ (Broker.Subscribe ids f))) as H0.
      rewrite register_occ_eq in H0.
      rewrite (proj1 (unregistered_occ f _) Hu id) in H0.
      fold σ0 in H0. fold σ1 in H1. lia. }
    split; [done|].
    destruct (BrokerFacts.exec_silent script f σ2 later Hu2 Hl) as [_ (new & Hc & Hn)].
    by rewrite (calls_since_app _ _ _ Hc).
  - intros σ ids f during later Hu Hd Hl σ1 σ2.
    set (σ0 := BrokerW.step script σ (BrokerW.Subscribe ids f)) in σ1.
    assert (unregistered f (BrokerW.store σ2)) as Hu2.
    { apply unregistered_occ. intros id. unfold σ2. simpl.
      destruct (unsubscribe_at_spec ids f (BrokerW.store σ1)) as (_ & _ & -> & _).
      rewrite unsubscribe_occ, decide_True by done.
      assert (safe (subs (BrokerW.store σ1)) (unscalar ids)
              = safe (subs (BrokerW.store σ)) (unscalar ids)) as ->.
      { apply safe_ext. intros i. unfold σ1. rewrite execW_plain. unfold σ0.
        rewrite (shrunk_plain _ _ i (stepW_shape σ (BrokerW.Subscribe ids f))).
        apply register_plain_iff. }
      pose proof (execW_occ σ0 during f id Hd) as H1.
      pose proof (shrunk_occ _ _ f id (stepW_shape σ (BrokerW.Subscribe ids f))) as H0.
      rewrite register_occ_eq in H0.
      rewrite (proj1 (unregistered_occ f _) Hu id) in H0.
      fold σ0 in H0. fold σ1 in H1. lia. }
    split; [done|].
    destruct (BrokerWFacts.execW_silent script f σ2 later Hu2 Hl) as [_ (new & Hc & Hn)].
    by rewrite (calls_since_app _ _ _ Hc).
Qed.

(** X7.  The order of a pass, and where it ends.  When the subscribers
    notified do not unsubscribe, the pass gets through the emitted
    identifiers listed before the first one whose lookup finds an
    inherited property, and raises there if there is one.  Its calls
    are: for each identifier it got through, in the order of emission,
    repeats included, each subscriber of its array in the order of
    subscription, repeats included, every one with the new state.  In
    [Broker.tsx] for a transition that emits, from an idle broker. *)
Theorem pass_in_order :
  (∀ (σ : Broker.Core S) r st,
     Broker.outcome r = inl st → Broker.idle σ → Broker.emitted r ≠ [] →
     quiet_on (flip script st) (Broker.emitted r) (subs (Broker.store σ)) →
     let reached := safe (subs (Broker.store σ)) (Broker.emitted r) in
     Broker.pass script r σ =
       flat_map (λ id, map (λ f, (f, st)) (default [] (subs (Broker.store σ) !! id)))
         reached ∧
     thrown (Broker.render script r σ) =
       (if decide (reached = Broker.emitted r) then None else Some TypeError)) ∧
  (∀ (σ : BrokerW.Core S) r hr,
     BrokerW.outcome r = inl hr → BrokerW.committed σ →
     quiet_on (flip script (BrokerW.hr_state hr)) (BrokerW.emitted r)
       (subs (BrokerW.store σ)) →
     let reached := safe (subs (BrokerW.store σ)) (BrokerW.emitted r) in
     BrokerW.pass script r σ =
       flat_map (λ id, map (λ f, (f, BrokerW.hr_state hr))
                         (default [] (subs (BrokerW.store σ) !! id)))
         reached ∧
     thrown (BrokerW.render script r σ) =
       (if decide (reached = BrokerW.emitted r) then None else Some TypeError)).
Proof.
  split.
  - intros σ r st Hout Hidle Hne Hq.
    by destruct (Transitions.pass_emitting_quiet script σ r st) as (? & ? & _).
  - intros σ r hr Hout Hc Hq.
    by destruct (Transitions.passW_quiet script σ r hr) as (? & ?).
Qed.

(** X8.  Whatever has happened since the broker was mounted, a
    [subscribe] that gets through its loop calls the subscriber once, on
    the spot, with [ref.current], and that is the state returned by the
    last render that returned and whose effect has run (the state of the
    mount if there is none): a thrown render and the renders before it
    leave no stale snapshot.  A [subscribe] that raises in its loop
    calls nobody.  In both brokers. *)
Theorem bootstrap_sees_last_state :
  (∀ ids0 st steps ids f,
     let σ := Broker.exec script (Broker.mount script ids0 st) steps in
     calls_since (Broker.store σ)
       (Broker.store (Broker.step script σ (Broker.Subscribe ids f)))
       = (if decide (Forall (plain (subs (Broker.store σ))) (unscalar ids))
          then [(f, Broker.last_state st steps)] else [])) ∧
  (∀ ids0 hr steps ids f,
     let σ := BrokerW.exec script (BrokerW.mount script ids0 hr) steps in
     calls_since (BrokerW.store σ)
       (BrokerW.store (BrokerW.step script σ (BrokerW.Subscribe ids f)))
       = (if decide (Forall (plain (subs (BrokerW.store σ))) (unscalar ids))
          then [(f, BrokerW.last_state (BrokerW.hr_state hr) steps)] else [])).
Proof.
  split.
  - intros ids0 st steps ids f σ. simpl.
    apply calls_since_app.
    destruct (subscribe_spec script ids f (Broker.store σ)) as (_ & _ & ->).
    pose proof (BrokerFacts.exec_committed script _ steps
                  (BrokerFacts.mount_committed script ids0 st)) as Hc.
    fold σ in Hc. rewrite Hc. unfold σ.
    by rewrite BrokerFacts.exec_state, BrokerFacts.mount_state.
  - intros ids0 hr steps ids f σ. simpl.
    apply calls_since_app.
    destruct (subscribe_spec script ids f (BrokerW.store σ)) as (_ & _ & ->).
    pose proof (BrokerWFacts.execW_committed script _ steps
                  (BrokerWFacts.mountW_committed script ids0 hr)) as Hc.
    fold σ in Hc. rewrite Hc. unfold σ.
    by rewrite BrokerWFacts.execW_state, BrokerWFacts.mountW_state.
Qed.

(** X9.  [Broker.tsx], a transition that emits, from an idle broker: the
    identifiers just emitted replace the ones the state held, and the
    effect dispatches exactly these with the new state in the ref.  The
    render raises what the dispatch raises; the flag is up again if the
    dispatch returns, and stays down if it raises. *)
Theorem emitting_replaces_updates (σ : Broker.Core S) r st :
  Broker.outcome r = inl st → Broker.idle σ → Broker.emitted r ≠ [] →
  let c := dispatch script (Broker.emitted r) (set_ref st (Broker.store σ)) in
  let σ' := store_of (Broker.render script r σ) in
  Broker.updates σ' = Broker.emitted r ∧
  Broker.store σ' = store_of c ∧
  thrown (Broker.render script r σ) = thrown c ∧
  Broker.resetUpdates σ' = bool_decide (thrown c = None).
Proof.
  intros Hout Hidle Hne. simpl.
  rewrite (BrokerFacts.render_emitting script σ r st) by done.
  by destruct (dispatch script _ _).
Qed.

(** X10.  [Broker.tsx], a transition that returns a new state and emits
    nothing: the effect runs, and what it dispatches is whatever the
    state of updates holds, which the transition leaves as it was. *)
Theorem state_only_render (σ : Broker.Core S) r st :
  Broker.outcome r = inl st → Broker.emitted r = [] → st ≠ Broker.state σ →
  let σ' := store_of (Broker.render script r σ) in
  Broker.store σ'
    = store_of (dispatch script (Broker.updates σ) (set_ref st (Broker.store σ))) ∧
  Broker.updates σ' = Broker.updates σ.
Proof.
  intros Hout Hemp Hne. simpl.
  rewrite (BrokerFacts.render_no_emit script σ r st) by done.
  case_bool_decide as Hlen; simpl.
  - by destruct (dispatch script _ _).
  - destruct (Broker.updates σ); [done | simpl in Hlen; lia].
Qed.

End Both.

Section HistoriesAtWork.

#[local] Open Scope string_scope.

Lemma unsubscribed_for_good_witness :
  (let σ1 := Broker.exec quiet (Broker.step quiet broker (Broker.Subscribe (Scalar "a") 9)) life in
   let σ2 := Broker.step quiet σ1 (Broker.Unsubscribe (Scalar "a") 9) in
   unregistered 9 (Broker.store σ2) ∧
   times 9 (calls_since (Broker.store σ2) (Broker.store (Broker.exec quiet σ2 life))) = 0) ∧
  (let σ1 := BrokerW.exec quiet (BrokerW.step quiet brokerW (BrokerW.Subscribe (Scalar "a") 9)) lifeW in
   let σ2 := BrokerW.step quiet σ1 (BrokerW.Unsubscribe (Scalar "a") 9) in
   unregistered 9 (BrokerW.store σ2) ∧
   times 9 (calls_since (BrokerW.store σ2) (BrokerW.store (BrokerW.exec quiet σ2 lifeW))) = 0).
Proof.
  split.
  - apply (proj1 (unsubscribed_for_good quiet) broker (Scalar "a") 9 life life).
    + intros id s. rewrite Transitions.broker_subs.
      intros [<- <-]%lookup_singleton_Some. rewrite list_elem_of_singleton. lia.
    + repeat constructor; simpl; (done || lia).
    + repeat constructor; simpl; (done || lia).
  - apply (proj2 (unsubscribed_for_good quiet) brokerW (Scalar "a") 9 lifeW lifeW).
    + intros id s. rewrite Transitions.brokerW_subs.
      intros [<- <-]%lookup_singleton_Some. rewrite list_elem_of_singleton. lia.
    + repeat constructor; simpl; (done || lia).
    + repeat constructor; simpl; (done || lia).
Defined.

Lemma pass_in_order_witness :
  (let reached := safe (subs (Broker.store broker)) ["a"; "a"] in
   Broker.pass quiet a_twice broker =
     flat_map (λ id, map (λ f, (f, 1)) (default [] (subs (Broker.store broker) !! id)))
       reached ∧
   thrown (Broker.render quiet a_twice broker) =
     (if decide (reached = ["a"; "a"]) then None else Some TypeError)) ∧
  (let reached := safe (subs (BrokerW.store brokerW)) ["a"; "a"] in
   BrokerW.pass quiet a_twiceW brokerW =
     flat_map (λ id, map (λ f, (f, 1)) (default [] (subs (BrokerW.store brokerW) !! id)))
       reached ∧
   thrown (BrokerW.render quiet a_twiceW brokerW) =
     (if decide (reached = ["a"; "a"]) then None else Some TypeError)).
Proof.
  split.
  - apply (proj1 (pass_in_order quiet) broker a_twice 1);
      [reflexivity | by vm_compute | done | by intros id s f _ _ _].
  - apply (proj2 (pass_in_order quiet) brokerW a_twiceW
             (BrokerW.mkHookResult 1 (writer 101)));
      [reflexivity | by vm_compute | by intros id s f _ _ _].
Defined.

(** X7 at work with subscriber 2 under ["b"]: ["b"] emitted before
    ["toString"] is dispatched, ["a"] emitted after it is not. *)
Example pass_ends_at_toString :
  let σ := Broker.exec quiet broker [Broker.Subscribe (Scalar "b") 2] in
  let r := Broker.mkRun ["b"; "toString"; "a"] (inl 1) in
  safe (subs (Broker.store σ)) (Broker.emitted r) = ["b"] ∧
  Broker.pass quiet r σ = [(2, 1)] ∧
  thrown (Broker.render quiet r σ) = Some TypeError ∧
  Broker.resetUpdates (store_of (Broker.render quiet r σ)) = false.
Proof. by vm_compute. Qed.

Lemma emitting_replaces_updates_witness :
  let c := dispatch quiet ["a"; "a"] (set_ref 1 (Broker.store broker_after_a)) in
  let σ' := store_of (Broker.render quiet a_twice broker_after_a) in
  Broker.updates σ' = ["a"; "a"] ∧
  Broker.store σ' = store_of c ∧
  thrown (Broker.render quiet a_twice broker_after_a) = thrown c ∧
  Broker.resetUpdates σ' = bool_decide (thrown c = None).
Proof.
  apply (emitting_replaces_updates quiet broker_after_a a_twice 1);
    [reflexivity | by vm_compute | done].
Defined.

(** X9 at work: after the transition that emitted ["toString"] the
    flag is down and the identifiers are still held, so the next
    [update] appends to them. *)
Example flag_stays_down :
  let σ' := store_of (Broker.render quiet toString_a broker) in
  Broker.resetUpdates σ' = false ∧ Broker.updates σ' = ["toString"; "a"] ∧
  Broker.updates (Broker.update σ' "b") = ["toString"; "a"; "b"].
Proof. by vm_compute. Qed.

Lemma state_only_render_witness :
  let σ' := store_of (Broker.render quiet no_emit broker_after_a) in
  Broker.store σ' =
    store_of (dispatch quiet (Broker.updates broker_after_a)
                (set_ref 2 (Broker.store broker_after_a))) ∧
  Broker.updates σ' = Broker.updates broker_after_a.
Proof.
  apply (state_only_render quiet broker_after_a no_emit 2);
    [reflexivity | reflexivity | by vm_compute].
Defined.



Lemma no_emit_W_witness :
  BrokerW.pass quiet no_emitW brokerW_after_a = [] ∧
  ref (BrokerW.store (store_of (BrokerW.render quiet no_emitW brokerW_after_a))) = 2.
Proof.
  apply (Transitions.no_emit_W quiet brokerW_after_a no_emitW
           (BrokerW.mkHookResult 2 (writer 102)));
    [reflexivity | reflexivity | by vm_compute].
Defined.

End HistoriesAtWork.

End Histories.

(** ** The writer and the context values *)

Module Providers.

Import Registry RegistryFacts StoreFacts React Examples.

Lemma fields_of_unpacked (l l' : list (string * Value)) :
  map (λ f, VStr f.1) l = map (λ f, VStr f.1) l' →
  map snd l = map snd l' → l = l'.
Proof.
  revert l'. induction l as [|[k v] l IH]; intros [|[k' v'] l']; simpl; try done.
  intros [= -> Hk] [= -> Hv]. f_equal. by apply IH.
Qed.

Lemma objectUnpack_length (obj : BrokerW.Writer) :
  length (BrokerW.objectUnpack obj) = 2 * length (BrokerW.w_fields obj).
Proof.
  rewrite BrokerWFacts.objectUnpack_fields, length_app, !length_map. lia.
Qed.

Lemma objectUnpack_inj (obj obj' : BrokerW.Writer) :
  BrokerW.objectUnpack obj = BrokerW.objectUnpack obj'
  ↔ BrokerW.w_fields obj = BrokerW.w_fields obj'.
Proof.
  rewrite !BrokerWFacts.objectUnpack_fields.
  split; [|by intros ->]. intros Heq.
  assert (length (BrokerW.w_fields obj) = length (BrokerW.w_fields obj')) as Hlen.
  { apply (f_equal length) in Heq. rewrite !length_app, !length_map in Heq. lia. }
  apply app_inj_1 in Heq as [Hk Hv]; [|by rewrite !length_map].
  by apply fields_of_unpacked.
Qed.


Lemma areHookInputsEqual_same_length {D} `{EqDecision D} (l l' : list D) :
  length l = length l' → areHookInputsEqual l l' = bool_decide (l = l').
Proof.
  revert l'. induction l as [|x l IH]; intros [|y l']; simpl; try done.
  intros [= Hlen]. case_decide as Hxy.
  - subst y. rewrite IH by done. apply bool_decide_ext. split; [by intros -> | by intros [= ->]].
  - symmetry. apply bool_decide_eq_false. by intros [= ? ?].
Qed.

Section Writer.

Context {S : Type} `{EqDecision S}.
Variable script : Sub → S → Script.

(** The memo of the writer is keyed by the fields of the writer it
    holds, from the first render on. *)
Lemma renderW_keyed (σ : BrokerW.Core S) r :
  memo_deps (BrokerW.w σ) = BrokerW.objectUnpack (memo_value (BrokerW.w σ)) →
  memo_deps (BrokerW.w (store_of (BrokerW.render script r σ)))
    = BrokerW.objectUnpack (memo_value (BrokerW.w (store_of (BrokerW.render script r σ)))).
Proof.
  intros Hk. unfold BrokerW.render. destruct (BrokerW.outcome r) as [hr|e]; simpl; [|done].
  destruct (dispatch script _ _); simpl;
    unfold useMemo; by destruct (areHookInputsEqual _ _).
Qed.

Lemma execW_keyed ids hr steps :
  let σ := BrokerW.exec script (BrokerW.mount script ids hr) steps in
  memo_deps (BrokerW.w σ) = BrokerW.objectUnpack (memo_value (BrokerW.w σ)).
Proof.
  simpl. unfold BrokerW.exec.
  assert (memo_deps (BrokerW.w (BrokerW.mount script ids hr))
          = BrokerW.objectUnpack (memo_value (BrokerW.w (BrokerW.mount script ids hr))))
    as H0.
  { unfold BrokerW.mount, BrokerW.first_render. by destruct (dispatch script _ _). }
  revert H0. generalize (BrokerW.mount script ids hr) as σ.
  induction steps as [|s steps IH]; intros σ Hk; simpl; [done|].
  apply IH. destruct s; simpl; [by apply renderW_keyed | done..].
Qed.

(** The memo that a render leaves, whether its effects raise or not. *)
Lemma renderW_memo (σ : BrokerW.Core S) r hr :
  BrokerW.outcome r = inl hr →
  BrokerW.w (store_of (BrokerW.render script r σ))
    = useMemo (BrokerW.w σ) (BrokerW.hr_writer hr)
        (BrokerW.objectUnpack (BrokerW.hr_writer hr)).
Proof.
  intros Hout. unfold BrokerW.render. rewrite Hout.
  by destruct (dispatch script _ _).
Qed.

(** X12.  The writer handed on by [useCore], after any history of the
    broker and one more render whose writer has as many fields as the
    writer held: it is the writer held if the fields are the same, names
    and values in order, and the writer just returned if any differs. *)
Theorem writer_follows_fields ids hr0 steps r hr :
  let σ := BrokerW.exec script (BrokerW.mount script ids hr0) steps in
  let held := memo_value (BrokerW.w σ) in
  BrokerW.outcome r = inl hr →
  length (BrokerW.w_fields (BrokerW.hr_writer hr)) = length (BrokerW.w_fields held) →
  memo_value (BrokerW.w (store_of (BrokerW.render script r σ))) =
    if decide (BrokerW.w_fields (BrokerW.hr_writer hr) = BrokerW.w_fields held)
    then held else BrokerW.hr_writer hr.
Proof.
  intros σ held Hout Hlen.
  pose proof (execW_keyed ids hr0 steps) as Hk. simpl in Hk. fold σ in Hk.
  rewrite (renderW_memo σ r hr Hout). unfold useMemo. rewrite Hk.
  rewrite areHookInputsEqual_same_length.
  - fold held. case_decide as Hf.
    + rewrite bool_decide_eq_true_2; [done|].
      by apply objectUnpack_inj.
    + rewrite bool_decide_eq_false_2; [done|].
      intros Heq. by apply objectUnpack_inj in Heq.
  - rewrite !objectUnpack_length. fold held. lia.
Qed.

(** The core of a provider is the broker run through the same renders. *)
Lemma core_provide (p : Broker.Provider S) r :
  Broker.core (store_of (Broker.provide script r p))
    = store_of (Broker.render script r (Broker.core p)).
Proof.
  unfold Broker.provide.
  by destruct (Broker.outcome r), (Broker.render script r (Broker.core p)).
Qed.

Lemma core_provides (p : Broker.Provider S) rs :
  Broker.core (Broker.provides script p rs)
    = Broker.exec script (Broker.core p) (Broker.Render <$> rs).
Proof.
  unfold Broker.provides, Broker.exec. revert p.
  induction rs as [|r rs IH]; intros p; simpl; [done|].
  rewrite IH. f_equal. apply core_provide.
Qed.

Lemma coreW_provide (p : BrokerW.Provider S) r :
  BrokerW.core (store_of (BrokerW.provide script r p))
    = store_of (BrokerW.render script r (BrokerW.core p)).
Proof.
  unfold BrokerW.provide.
  by destruct (BrokerW.outcome r), (BrokerW.render script r (BrokerW.core p)).
Qed.

Lemma coreW_provides (p : BrokerW.Provider S) rs :
  BrokerW.core (BrokerW.provides script p rs)
    = BrokerW.exec script (BrokerW.core p) (BrokerW.Render <$> rs).
Proof.
  unfold BrokerW.provides, BrokerW.exec. revert p.
  induction rs as [|r rs IH]; intros p; simpl; [done|].
  rewrite IH. f_equal. apply coreW_provide.
Qed.

Lemma provide_contexts (p : Broker.Provider S) r :
  memo_deps (Broker.stateCtx p) = [Broker.useContainer p] →
  Broker.useContainer p = Broker.state (Broker.core p) →
  let p' := store_of (Broker.provide script r p) in
  memo_deps (Broker.stateCtx p') = [Broker.useContainer p'] ∧
  Broker.useContainer p' = Broker.state (Broker.core p') ∧
  Broker.constCtx p' = Broker.constCtx p.
Proof.
  intros Hd Hs. simpl. rewrite core_provide.
  unfold Broker.provide, Broker.useContainer in *.
  destruct (Broker.outcome r) as [st|e] eqn:Hout.
  - pose proof (BrokerFacts.render_state script (Broker.core p) r st Hout) as Hst.
    destruct (Broker.render script r (Broker.core p)) as [c|e c]; simpl in *;
      unfold useMemo; rewrite Hd; simpl; by case_decide.
  - rewrite (BrokerFacts.render_throws script _ r e Hout). simpl.
    split; [done|]. split; [|done]. rewrite Hs.
    by destruct (BrokerFacts.update_fold_store (Broker.core p) (Broker.emitted r)) as [_ ->].
Qed.

Lemma provides_contexts (p : Broker.Provider S) rs :
  memo_deps (Broker.stateCtx p) = [Broker.useContainer p] →
  Broker.useContainer p = Broker.state (Broker.core p) →
  let p' := Broker.provides script p rs in
  memo_deps (Broker.stateCtx p') = [Broker.useContainer p'] ∧
  Broker.useContainer p' = Broker.state (Broker.core p') ∧
  Broker.constCtx p' = Broker.constCtx p.
Proof.
  simpl. unfold Broker.provides. revert p.
  induction rs as [|r rs IH]; intros p Hd Hs; simpl; [done|].
  destruct (provide_contexts p r Hd Hs) as (Hd' & Hs' & <-).
  by apply IH.
Qed.

(** X13.  The contexts of [Broker.tsx], after the first render and any
    series of renders, returning or throwing: [useContainer] returns the
    state returned by the last render that returned, and [useWriter]
    still returns the state returned by the first render. *)
Theorem provider_contexts ids st rs :
  let p := Broker.provides script (Broker.provide_first script ids st) rs in
  Broker.useContainer p = Broker.last_state st (Broker.Render <$> rs) ∧
  Broker.useWriter p = st.
Proof.
  simpl.
  destruct (provides_contexts (Broker.provide_first script ids st) rs)
    as (_ & -> & Hconst); [done..|].
  unfold Broker.useWriter. rewrite Hconst, core_provides. simpl.
  rewrite BrokerFacts.exec_state, !BrokerFacts.mount_state. done.
Qed.

Lemma provideW_coherent ws (p : BrokerW.Provider S) r :
  BrokerW.distinct_objects ws →
  (∀ hr, BrokerW.outcome r = inl hr → BrokerW.hr_writer hr ∈ ws) →
  BrokerW.coherent ws p →
  BrokerW.coherent ws (store_of (BrokerW.provide script r p)) ∧
  BrokerW.refCtx (store_of (BrokerW.provide script r p)) = BrokerW.refCtx p.
Proof.
  intros Hws Hr (Hin & Hsd & Hs & Hwd & Hw).
  unfold BrokerW.provide, BrokerW.render.
  destruct (BrokerW.outcome r) as [hr|e] eqn:Hout; simpl; [|done].
  set (w' := useMemo (BrokerW.w (BrokerW.core p)) (BrokerW.hr_writer hr)
               (BrokerW.objectUnpack (BrokerW.hr_writer hr))).
  assert (memo_value w' ∈ ws) as Hin'.
  { unfold w', useMemo. destruct (areHookInputsEqual _ _); [done|]. by apply Hr. }
  destruct (dispatch script (BrokerW.emitted r) _) as [t|e t]; simpl;
    (split; [|done]);
    unfold BrokerW.coherent, BrokerW.useWriter in *; simpl;
    (split; [done|]); unfold useMemo; rewrite Hsd, Hwd; simpl;
    destruct (decide (BrokerW.hr_state hr = _)) as [Hst|Hst];
    destruct (decide (BrokerW.w_addr (memo_value w') = _)) as [Ha|Ha];
    simpl; repeat split; try done;
    first [ by rewrite Ha
          | apply Hws; [by rewrite Hw | done | done] ].
Qed.

Lemma providesW_coherent ws (p : BrokerW.Provider S) rs :
  BrokerW.distinct_objects ws →
  (∀ x, x ∈ BrokerW.writers rs → x ∈ ws) →
  BrokerW.coherent ws p →
  BrokerW.coherent ws (BrokerW.provides script p rs) ∧
  BrokerW.refCtx (BrokerW.provides script p rs) = BrokerW.refCtx p.
Proof.
  intros Hws. unfold BrokerW.provides. revert p.
  induction rs as [|r rs IH]; intros p Hrs Hc; simpl; [done|].
  destruct (provideW_coherent ws p r Hws) as [Hc' <-]; [|done|].
  { intros hr Hout. apply Hrs. unfold BrokerW.writers. simpl. rewrite Hout. left. }
  apply IH; [|done].
  intros x Hx. apply Hrs. unfold BrokerW.writers in *. simpl.
  destruct (BrokerW.outcome r); [by right | done].
Qed.

(** X14.  The contexts of the broker with a writer, after the first
    render and any series of renders, returning or throwing, when the
    hook never hands out two different writers at one address: the state
    context carries the state returned by the last render that returned;
    [useWriter] returns the writer that [useCore] memoised; and the ref
    context, from which [useSubscription] takes [ctx.writer], is still the
    object of the first render, with the first writer. *)
Theorem providerW_contexts ids hr rs :
  BrokerW.distinct_objects (BrokerW.hr_writer hr :: BrokerW.writers rs) →
  let p := BrokerW.provides script (BrokerW.provide_first script ids hr) rs in
  BrokerW.ctx_state (memo_value (BrokerW.stateCtx p))
    = BrokerW.last_state (BrokerW.hr_state hr) (BrokerW.Render <$> rs) ∧
  BrokerW.useWriter p = memo_value (BrokerW.w (BrokerW.core p)) ∧
  BrokerW.refCtx p = BrokerW.mkContext 0 (BrokerW.hr_state hr) (BrokerW.hr_writer hr).
Proof.
  intros Hws. simpl.
  destruct (providesW_coherent _ (BrokerW.provide_first script ids hr) rs Hws)
    as ((_ & _ & -> & _ & ->) & ->).
  - intros x Hx. by right.
  - unfold BrokerW.provide_first, BrokerW.coherent, BrokerW.useWriter. simpl.
    rewrite BrokerWFacts.mountW_state.
    unfold BrokerW.mount, BrokerW.first_render.
    destruct (dispatch script ids _); simpl; repeat split; left.
  - rewrite coreW_provides, BrokerWFacts.execW_state.
    unfold BrokerW.provide_first. simpl. rewrite !BrokerWFacts.mountW_state.
    split; [done|]. split; [done|].
    unfold BrokerW.mount, BrokerW.first_render. by destruct (dispatch script ids _).
Qed.

End Writer.

Section ProvidersAtWork.

#[local] Open Scope string_scope.

Lemma writer_follows_fields_witness :
  let σ := BrokerW.exec quiet
             (BrokerW.mount quiet [] (BrokerW.mkHookResult 0 (writer 100)))
             [BrokerW.Subscribe (Scalar "a") 1] in
  let held := memo_value (BrokerW.w σ) in
  memo_value (BrokerW.w (store_of (BrokerW.render quiet no_emitW σ))) =
    if decide (BrokerW.w_fields (BrokerW.hr_writer (BrokerW.mkHookResult 2 (writer 102)))
               = BrokerW.w_fields held)
    then held else BrokerW.hr_writer (BrokerW.mkHookResult 2 (writer 102)).
Proof.
  apply (writer_follows_fields quiet [] (BrokerW.mkHookResult 0 (writer 100))
           [BrokerW.Subscribe (Scalar "a") 1] no_emitW
           (BrokerW.mkHookResult 2 (writer 102))); reflexivity.
Defined.

Lemma providerW_contexts_witness :
  let p := BrokerW.provides quiet
             (BrokerW.provide_first quiet [] (BrokerW.mkHookResult 0 (writer 100)))
             [a_twiceW; throwingW; no_emitW] in
  BrokerW.ctx_state (memo_value (BrokerW.stateCtx p))
    = BrokerW.last_state 0 (BrokerW.Render <$> [a_twiceW; throwingW; no_emitW]) ∧
  BrokerW.useWriter p = memo_value (BrokerW.w (BrokerW.core p)) ∧
  BrokerW.refCtx p = BrokerW.mkContext 0 0 (writer 100).
Proof.
  apply (providerW_contexts quiet [] (BrokerW.mkHookResult 0 (writer 100))
           [a_twiceW; throwingW; no_emitW]).
  intros w1 w2 H1 H2 Haddr.
  change (BrokerW.writers [a_twiceW; throwingW; no_emitW])
    with [writer 101; writer 102] in H1, H2. simpl in H1, H2.
  rewrite !elem_of_cons, elem_of_nil in H1, H2.
  destruct H1 as [->|[->|[->|[]]]], H2 as [->|[->|[->|[]]]];
    first [reflexivity | simpl in Haddr; lia].
Defined.

End ProvidersAtWork.

End Providers.


(** ** Subscribers in a [Set] *)

Module SetFacts.

Import Subscription.

Lemma emptied_refl d : emptied d d.
Proof. apply Forall2_same_length_lookup_2; [done|]. intros i x y Hx Hy. left. congruence. Qed.

Lemma emptied_trans d1 d2 d3 : emptied d1 d2 → emptied d2 d3 → emptied d1 d3.
Proof.
  unfold emptied. intros H12. revert d3.
  induction H12 as [|e1 e2 d1 d2 He _ IH]; intros d3 H23; inversion_clear H23; constructor.
  - destruct He as [-> | ->]; [done | by right].
  - by apply IH.
Qed.

Lemma set_delete_emptied f d : emptied (set_delete f d) d.
Proof.
  unfold emptied, set_delete. induction d as [|e d IH]; simpl; constructor; [|done].
  case_decide; [by right | by left].
Qed.

Lemma emptied_elements d' d : emptied d' d → sublist (set_elements d') (set_elements d).
Proof.
  unfold set_elements.
  induction 1 as [|e' e d' d He _ IH]; simpl; [done|].
  destruct He as [-> | ->]; destruct e as [x|]; simpl;
    [by apply sublist_skip | done | by apply sublist_cons | done].
Qed.

Lemma emptied_drop i d' d : emptied d' d → emptied (drop i d') (drop i d).
Proof. apply Forall2_drop. Qed.

Lemma emptied_lookup i d' d e :
  emptied d' d → d !! i = Some e → d' !! i = Some e ∨ d' !! i = Some None.
Proof.
  intros H He. destruct (Forall2_lookup_r _ _ _ _ _ H He) as (e' & He' & [-> | ->]); eauto.
Qed.

Lemma elem_of_set_elements f d : f ∈ set_elements d ↔ Some f ∈ d.
Proof.
  unfold set_elements. rewrite list_elem_of_omap. split.
  - by intros ([x|] & Hx & [= ->]).
  - intros H. by exists (Some f).
Qed.

Lemma set_delete_absent f d : Some f ∉ d → set_delete f d = d.
Proof.
  unfold set_delete. induction d as [|e d IH]; [done|].
  rewrite not_elem_of_cons. intros [Hne Hd]. rewrite fmap_cons.
  rewrite decide_False by congruence. by rewrite IH.
Qed.

Lemma set_delete_gone f d : Some f ∉ set_delete f d.
Proof.
  unfold set_delete. rewrite list_elem_of_fmap. intros (e & He & _).
  case_decide; congruence.
Qed.

Section Facts.

Context {S : Type} `{EqDecision S}.
Variable script : Registry.Sub → S → Script.

Implicit Types (σ : Store S) (f : Registry.Sub) (st : S).

Lemma unsubscribes_spec σ ts :
  let σ' := foldl unsubscribe σ ts in
  ref σ' = ref σ ∧ calls σ' = calls σ ∧ emptied (subs σ') (subs σ).
Proof.
  revert σ. induction ts as [|t ts IH]; intros σ; simpl.
  - repeat split. apply emptied_refl.
  - destruct (IH (unsubscribe σ t)) as (-> & -> & He). repeat split.
    eapply emptied_trans; [done|]. apply set_delete_emptied.
Qed.

Lemma call_spec f st σ :
  ref (call script f st σ) = ref σ ∧
  calls (call script f st σ) = calls σ ++ [(f, st)] ∧
  emptied (subs (call script f st σ)) (subs σ).
Proof. unfold call. apply (unsubscribes_spec (mkStore _ _ _)). Qed.

Lemma set_elements_drop_Some d i f :
  d !! i = Some (Some f) →
  set_elements (drop i d) = f :: set_elements (drop (Datatypes.S i) d).
Proof. intros H. by rewrite (drop_S _ _ _ H). Qed.

Lemma set_elements_drop_None d i :
  d !! i = Some None →
  set_elements (drop i d) = set_elements (drop (Datatypes.S i) d).
Proof. intros H. by rewrite (drop_S _ _ _ H). Qed.

(** The loop from index [i] on: it calls some of the subscribers that are
    at [i] or after, in order, and among them every one that is still
    there, at [i] or after, when it ends. *)
Lemma for_of_set n st i σ :
  length (subs σ) ≤ n + i →
  let σ' := for_of script n st i σ in
  ref σ' = ref σ ∧ emptied (subs σ') (subs σ) ∧
  ∃ cs, calls σ' = calls σ ++ map (λ f, (f, st)) cs ∧
        sublist cs (set_elements (drop i (subs σ))) ∧
        sublist (set_elements (drop i (subs σ'))) cs.
Proof.
  revert i σ. induction n as [|n IH]; intros i σ Hlen; simpl.
  { split; [done|]. split; [apply emptied_refl|]. exists []. simpl.
    rewrite app_nil_r, drop_ge by lia. done. }
  destruct (subs σ !! i) as [[f|]|] eqn:Hi.
  - destruct (call_spec f st σ) as (Hr1 & Hc1 & He1).
    destruct (IH (Datatypes.S i) (call script f st σ)) as (Hr & He & cs & Hc & Hsub & Hsup).
    { rewrite (Forall2_length _ _ _ He1). lia. }
    split; [congruence|]. split; [by eapply emptied_trans|].
    exists (f :: cs). split; [by rewrite Hc, Hc1, <- app_assoc|]. split.
    + rewrite (set_elements_drop_Some _ _ _ Hi). apply sublist_skip.
      etrans; [done|]. by apply emptied_elements, emptied_drop.
    + destruct (emptied_lookup i _ _ _ (emptied_trans _ _ _ He He1) Hi) as [Hi'|Hi'].
      * rewrite (set_elements_drop_Some _ _ _ Hi'). by apply sublist_skip.
      * rewrite (set_elements_drop_None _ _ Hi'). by apply sublist_cons.
  - destruct (IH (Datatypes.S i) σ) as (Hr & He & cs & Hc & Hsub & Hsup); [lia|].
    split; [done|]. split; [done|]. exists cs. split; [done|]. split.
    + by rewrite (set_elements_drop_None _ _ Hi).
    + destruct (emptied_lookup i _ _ _ He Hi) as [Hi'|Hi'];
        by rewrite (set_elements_drop_None _ _ Hi').
  - split; [done|]. split; [apply emptied_refl|]. exists []. simpl.
    apply lookup_ge_None in Hi. rewrite app_nil_r, drop_ge by done. done.
Qed.

(** X15.  A pass over the [Set], whatever the subscribers unsubscribe
    while it runs: the subscribers called are subscribers of the set at
    the start, in its order, each handed the new state; and every
    subscriber that is in the set when the pass ends has been called.  So
    a subscriber that unsubscribes itself, or one called earlier, makes
    the pass skip nobody. *)
Theorem set_pass st σ :
  let σ' := effect script st σ in
  ref σ' = st ∧
  ∃ cs, calls σ' = calls σ ++ map (λ f, (f, st)) cs ∧
        sublist cs (set_elements (subs σ)) ∧
        sublist (set_elements (subs σ')) cs.
Proof.
  simpl. unfold effect.
  destruct (for_of_set (length (subs (set_ref st σ))) st 0 (set_ref st σ))
    as (Hr & _ & cs & Hc & Hsub & Hsup); [lia|].
  split; [done|]. exists cs. by rewrite !drop_0 in *.
Qed.



Lemma set_add_NoDup f d : NoDup (set_elements d) → NoDup (set_elements (set_add f d)).
Proof.
  intros Hd. unfold set_add. case_decide as Hin; [done|].
  unfold set_elements. rewrite omap_app. simpl.
  apply NoDup_app. split; [done|]. split; [|apply NoDup_singleton].
  intros x Hx ->%list_elem_of_singleton. by apply Hin, elem_of_set_elements.
Qed.

Lemma step_NoDup (σ : Core S) s :
  NoDup (set_elements (subs (store σ))) →
  NoDup (set_elements (subs (store (step script σ s)))).
Proof.
  intros Hd. destruct s as [[st|e]|f|f]; simpl.
  - case_decide; simpl; [done|].
    unfold effect.
    destruct (for_of_set (length (subs (set_ref st (store σ)))) st 0 (set_ref st (store σ)))
      as (_ & He & _); [lia|].
    by apply (sublist_NoDup _ _ Hd (emptied_elements _ _ He)).
  - done.
  - destruct (call_spec f (ref (store σ)) (set_subs (set_add f (subs (store σ))) (store σ)))
      as (_ & _ & He).
    by apply (sublist_NoDup _ _ (set_add_NoDup f _ Hd) (emptied_elements _ _ He)).
  - by apply (sublist_NoDup _ _ Hd (emptied_elements _ _ (set_delete_emptied f _))).
Qed.

(** X17.  However often, and in whatever history, subscribers subscribe
    to the subscription without identifiers, none is in the set twice;
    and one [unsubscribe(sub)] leaves [sub] out of the set, changes
    nothing when repeated, and changes nothing at all when [sub] was not
    there. *)
Theorem set_never_doubles st steps f :
  let σ := exec script (mount script st) steps in
  NoDup (set_elements (subs (store σ))) ∧
  (f ∉ set_elements (subs (unsubscribe (store σ) f))) ∧
  (unsubscribe (unsubscribe (store σ) f) f = unsubscribe (store σ) f) ∧
  (f ∉ set_elements (subs (store σ)) → unsubscribe (store σ) f = store σ).
Proof.
  simpl. split; [|split; [|split]].
  - unfold exec. assert (NoDup (set_elements (subs (store (mount script st))))) as H0
      by apply NoDup_nil_2.
    revert H0. generalize (mount script st) as σ.
    induction steps as [|s steps IH]; intros σ Hd; simpl; [done|].
    by apply IH, step_NoDup.
  - rewrite elem_of_set_elements. apply set_delete_gone.
  - unfold unsubscribe, set_subs. simpl. f_equal.
    apply set_delete_absent, set_delete_gone.
  - rewrite elem_of_set_elements. intros Hf. unfold unsubscribe.
    rewrite set_delete_absent by done. by destruct (store _).
Qed.

End Facts.

End SetFacts.


Module SetAtWork.

Import Subscription SetFacts Examples.

(** The pass that skips a subscriber of [Broker.tsx] skips nobody here:
    subscriber 1 unsubscribes itself, 2 and 3 are called all the same. *)
Example set_pass_skips_nobody :
  set_elements (subs (store set_three)) = [1; 2; 3] ∧
  called (store set_three) (effect departs 7 (store set_three)) = [1; 2; 3] ∧
  set_elements (subs (effect departs 7 (store set_three))) = [2; 3].
Proof. by vm_compute. Qed.


End SetAtWork.

(** ** [useSubscription] *)

Module Adapters.

Import Registry RegistryFacts StoreFacts Laws Examples.

Lemma iter_remove_first_ne n f y s :
  y ≠ f → Nat.iter n (remove_first f) (y :: s) = y :: Nat.iter n (remove_first f) s.
Proof.
  intros Hne. induction n as [|n IH]; simpl; [done|].
  by rewrite IH, remove_first_cons_ne.
Qed.

Lemma iter_remove_first_all n f s :
  occ f s ≤ n → Nat.iter n (remove_first f) s = filter (λ x, x ≠ f) s.
Proof.
  revert n. induction s as [|y s IH]; intros n Hn.
  - by apply iter_remove_first_absent, not_elem_of_nil.
  - rewrite occ_cons in Hn. rewrite filter_cons. destruct (decide (y = f)) as [->|Hne].
    + rewrite decide_False by (by intros ?). destruct n as [|n]; [lia|].
      rewrite Nat.iter_succ, <- Nat.iter_swap, remove_first_cons_eq. apply IH. lia.
    + rewrite decide_True by done. rewrite iter_remove_first_ne by done.
      f_equal. apply IH. lia.
Qed.

Section Hooks.

Context {S : Type} `{EqDecision S}.
Variable script : Sub → S → Script.

(** X18.  [useSubscription] of [Broker.tsx], [setIds] with a new
    array: React runs the cleanup of the effect that ran for the old
    array, then the effect for the new one.  If the setter is in each
    array as often as the identifier is listed in the old array, and the
    lookup of every identifier of the new array finds an array or
    nothing, then both return, and after them the setter is in each
    array as often as the identifier is listed in the new array, and
    nowhere else.  It is called once with the snapshot when the new
    array has an element, and not called when the new array is empty. *)
Theorem setIds_tracks (t : Store S) old new f :
  script f (ref t) = [] →
  (∀ id, occ f (default [] (subs t !! id)) = occ id old) →
  Forall (plain (subs t)) new →
  ∃ t1 t', Broker.sub_cleanup old f t = Normal t1 ∧
    Broker.sub_effect script new f t1 = Normal t' ∧
    (∀ id, occ f (default [] (subs t' !! id)) = occ id new) ∧
    calls_since t t' = (if bool_decide (0 < length new) then [(f, ref t)] else []).
Proof.
  intros Hq Hold Hnew.
  assert (Forall (plain (subs t)) old) as Hpold.
  { apply Forall_forall. intros id Hin. apply (plain_occ f). rewrite Hold.
    destruct (occ id old) eqn:Hz; [|lia]. by apply occ_absent in Hz. }
  assert (∃ t1, Broker.sub_cleanup old f t = Normal t1 ∧
            ref t1 = ref t ∧ calls t1 = calls t ∧ shrunk (subs t1) (subs t) ∧
            ∀ id, occ f (default [] (subs t1 !! id)) = 0)
    as (t1 & Hclean & Hr & Hc & Hs & H0).
  { unfold Broker.sub_cleanup. case_bool_decide as Hlen.
    - rewrite unsubscribe_at_plain by done. eexists. split; [done|].
      repeat split; [apply unsubscribe_shrunk|]. intros id. simpl.
      rewrite unsubscribe_occ, decide_True by done.
      apply safe_plain in Hpold. simpl. rewrite Hpold, Hold. lia.
    - exists t. repeat split; [apply shrunk_refl|]. intros id. rewrite Hold.
      destruct old; [done | simpl in Hlen; lia]. }
  assert (Forall (plain (subs t1)) new) as Hnew1.
  { eapply Forall_impl; [done|]. intros i. by apply shrunk_plain. }
  exists t1. unfold Broker.sub_effect. case_bool_decide as Hlen.
  - unfold subscribe. rewrite register_plain by done.
    rewrite call_quiet by (simpl; by rewrite Hr).
    eexists. split; [done|]. split; [done|]. split.
    + intros id. simpl. rewrite register_occ_eq, H0.
      apply safe_plain in Hnew1. by rewrite Hnew1.
    + apply calls_since_app. simpl. by rewrite Hc, Hr.
  - exists t1. split; [done|]. split; [done|]. split.
    + intros id. rewrite H0. destruct new; [done | simpl in Hlen; lia].
    + apply calls_since_app. by rewrite Hc, app_nil_r.
Qed.

(** X19.  [useSubscription] of the broker with a writer.  Turning the
    flag off and on again (the cleanup of the effect that subscribed, the
    effect and the cleanup for the flag down, the effect for the flag up),
    for a setter that was in each array as often as the identifier is
    listed in [ids]: it is called once with the snapshot, and in each
    array of [ids] it now stands at the end, after the other subscribers
    in their former order. *)
Theorem resubscribed_last (t : Store S) ids f id :
  script f (ref t) = [] →
  (∀ i, occ f (default [] (subs t !! i)) = occ i (unscalar ids)) →
  id ∈ unscalar ids →
  let t' := store_of (BrokerW.sub_effect script ids true f
              (store_of (BrokerW.sub_cleanup ids false f
                 (store_of (BrokerW.sub_effect script ids false f
                    (store_of (BrokerW.sub_cleanup ids true f t))))))) in
  subs t' !! id =
    Some (filter (λ g, g ≠ f) (default [] (subs t !! id))
          ++ replicate (occ id (unscalar ids)) f) ∧
  calls_since t t' = [(f, ref t)].
Proof.
  intros Hq Hocc Hin. simpl.
  assert (Forall (plain (subs t)) (unscalar ids)) as Hp.
  { apply Forall_forall. intros i Hi. apply (plain_occ f). rewrite Hocc.
    destruct (occ i (unscalar ids)) eqn:Hz; [|lia]. by apply occ_absent in Hz. }
  rewrite unsubscribe_at_plain by done. simpl.
  set (m1 := store_of (unsubscribe ids f (subs t))).
  assert (Forall (plain m1) (unscalar ids)) as Hp1.
  { eapply Forall_impl; [done|]. intros i.
    by apply shrunk_plain, unsubscribe_shrunk. }
  unfold subscribe. simpl. rewrite register_plain by done.
  rewrite call_quiet by done. simpl. split.
  - rewrite register_lookup. apply safe_plain in Hp1. rewrite Hp1.
    rewrite decide_True by done. unfold m1. rewrite unsubscribe_lookup.
    apply safe_plain in Hp. rewrite Hp.
    f_equal. f_equal. destruct (subs t !! id) as [s|] eqn:Hs; simpl; [|done].
    apply iter_remove_first_all. specialize (Hocc id). rewrite Hs in Hocc. simpl in Hocc. lia.
  - by apply calls_since_app.
Qed.

End Hooks.

Section AdaptersAtWork.

#[local] Open Scope string_scope.

Lemma setIds_tracks_witness :
  ∃ t1 t', Broker.sub_cleanup ["a"] 1 (Broker.store broker) = Normal t1 ∧
    Broker.sub_effect quiet ["b"; "a"; "b"] 1 t1 = Normal t' ∧
    (∀ id, occ 1 (default [] (subs t' !! id)) = occ id ["b"; "a"; "b"]) ∧
    calls_since (Broker.store broker) t' =
      (if bool_decide (0 < length ["b"; "a"; "b"])
       then [(1, ref (Broker.store broker))] else []).
Proof.
  apply (setIds_tracks quiet (Broker.store broker) ["a"] ["b"; "a"; "b"] 1); [done| |].
  - intros id. rewrite Transitions.broker_subs.
    destruct (decide (id = "a")) as [->|Hne].
    + by vm_compute.
    + rewrite lookup_singleton_ne by done. rewrite occ_cons, decide_False by done. done.
  - repeat constructor; by vm_compute.
Defined.

(** X18 at work, and past it: with a name of [Object.prototype] in the
    new array, the cleanup takes the setter out of ["a"], the effect
    pushes it under ["b"] and raises at ["toString"]; the setter is not
    under ["a"] again and has not been called. *)
Example setIds_toString :
  let t1 := store_of (Broker.sub_cleanup ["a"] 1 (Broker.store broker)) in
  let c := Broker.sub_effect quiet ["b"; "toString"; "a"] 1 t1 in
  subs t1 !! "a" = Some [] ∧
  thrown c = Some TypeError ∧
  subs (store_of c) !! "a" = Some [] ∧
  subs (store_of c) !! "b" = Some [1] ∧
  calls_since (Broker.store broker) (store_of c) = [].
Proof. by vm_compute. Qed.

Lemma resubscribed_last_witness :
  let t' := store_of (BrokerW.sub_effect quiet (Scalar "a") true 1
              (store_of (BrokerW.sub_cleanup (Scalar "a") false 1
                 (store_of (BrokerW.sub_effect quiet (Scalar "a") false 1
                    (store_of (BrokerW.sub_cleanup (Scalar "a") true 1 three))))))) in
  subs t' !! "a" =
    Some (app (filter (λ g, g ≠ 1) (default [] (subs three !! "a")))
              (replicate (occ "a" (unscalar (Scalar "a"))) 1)) ∧
  calls_since three t' = [(1, ref three)].
Proof.
  apply (resubscribed_last quiet three (Scalar "a") 1 "a"); [done| |left].
  intros i. rewrite Engine.three_subs.
  destruct (decide (i = "a")) as [->|Hne].
  - by vm_compute.
  - rewrite lookup_singleton_ne by done. simpl. rewrite occ_cons, decide_False by done. done.
Defined.

End AdaptersAtWork.

End Adapters.
